(** * InvisiVote: encrypted polls with public decryption after the window

    A shallow embedding of [contracts/InvisiVote.sol] and the proofs of the
    properties its specification states about it.

    The contract keeps one encrypted 32-bit counter per option of a poll,
    bumps all of them obliviously on every ballot, and accepts clear results
    only together with a decryption proof.  Solidity storage is modelled as
    a record of finite maps, a call as a computation in a state-and-revert
    monad, and the FHE library the contract imports as a type class. *)

From Stdlib Require Import ZArith Lia.
From stdpp Require Import base gmap strings list.

Open Scope Z_scope.

(** ** Machine integers *)

Definition uint32 (x : Z) : Z := x mod 2 ^ 32.
Definition uint64 (x : Z) : Z := x mod 2 ^ 64.
Definition max_uint256 : Z := 2 ^ 256 - 1.

Definition address : Type := Z.
Definition bytes : Type := list Byte.byte.

(** ** ABI encoding *)

(** [abi.encode] lays a value of a static type out as one word of 32
    bytes, big-endian, and an array of dynamic length as the offset of its
    data, its length, and its items one word each. *)
Definition byte_of_Z (z : Z) : Byte.byte :=
  default Byte.x00 (Byte.of_N (Z.to_N (z mod 256))).

Fixpoint big_endian (n : nat) (z : Z) : bytes :=
  match n with
  | O => []
  | S n' => big_endian n' (z / 256) ++ [byte_of_Z z]
  end.

Definition abi_word (z : Z) : bytes := big_endian 32 z.

(** [abi.encode(v_0, ..., v_{k-1})] of [k] values of static type. *)
Definition abi_encode_values (vs : list Z) : bytes :=
  mjoin (abi_word <$> vs).

(** [abi.encode(clearCounts)] of one [uint32[]]. *)
Definition abi_encode (clearCounts : list Z) : bytes :=
  abi_word 32 ++ abi_word (Z.of_nat (length clearCounts))
    ++ abi_encode_values clearCounts.

Fixpoint bytes_eqb (a b : bytes) : bool :=
  match a, b with
  | [], [] => true
  | x :: a', y :: b' => Byte.eqb x y && bytes_eqb a' b'
  | _, _ => false
  end.

(** ** The encrypted arithmetic capability *)

(** Modelled from the spec: the FHE library [@fhevm/solidity/lib/FHE.sol]
    that the contract imports is an external dependency and not part of
    the repository.  The class lists the primitives the contract calls.
    Handles are opaque; [decrypt] is the clear value the key holders would
    obtain and is never evaluated by the contract.  A [euint32] holds an
    unsigned 32-bit integer, so addition under encryption wraps at 2^32.
    [FHE_fromExternal] is [None] when the input proof is rejected and
    [FHE_checkSignatures] is [false] when the decryption proof is rejected;
    the library reverts in both cases.  [FHE_checkSignatures] receives the
    unwrapped handles, the bytes of the ABI-encoded clear values and the
    decryption proof. *)
Class FHEVM : Type := {
  euint32 : Type;
  ebool : Type;
  externalEuint32 : Type;
  FHE_asEuint32 : Z → euint32;
  FHE_eq : euint32 → euint32 → ebool;
  FHE_select : ebool → euint32 → euint32 → euint32;
  FHE_add : euint32 → euint32 → euint32;
  FHE_fromExternal : address → externalEuint32 → bytes → option euint32;
  FHE_checkSignatures : list euint32 → bytes → bytes → bool;
  decrypt : euint32 → Z;
  decrypt_bool : ebool → bool;
  decrypt_range : ∀ c, 0 ≤ decrypt c < 2 ^ 32;
  decrypt_asEuint32 : ∀ v, 0 ≤ v < 2 ^ 32 → decrypt (FHE_asEuint32 v) = v;
  decrypt_eq : ∀ a b,
    decrypt_bool (FHE_eq a b) = bool_decide (decrypt a = decrypt b);
  decrypt_select : ∀ c a b,
    decrypt (FHE_select c a b) = if decrypt_bool c then decrypt a else decrypt b;
  decrypt_add : ∀ a b,
    decrypt (FHE_add a b) = (decrypt a + decrypt b) mod 2 ^ 32;
}.

(** ** Errors and events *)

(** The eleven custom errors of the contract, the built-in [Panic] of
    checked arithmetic (0x11) and array indexing (0x32), and the two reverts
    raised inside the FHE library. *)
Inductive Error : Type :=
| VoteNotFound (voteId : Z)
| InvalidOptionsCount (count : Z)
| InvalidTimeRange (startTime endTime : Z)
| VotingNotStarted (voteId : Z)
| VotingStillActive (voteId : Z)
| VotingEnded (voteId : Z)
| AlreadyVoted (voteId : Z) (voter : address)
| DecryptionAlreadyRequested (voteId : Z)
| ResultsNotReady (voteId : Z)
| ResultsAlreadyPublished (voteId : Z)
| InvalidResultsLength (expected actual : Z)
| Panic (code : Z)
| InputProofInvalid
| DecryptionProofInvalid.

Inductive Event : Type :=
| VoteCreated (voteId : Z) (creator : address) (title : string)
              (startTime endTime : Z)
| VoteCast (voteId : Z) (voter : address)
| ResultsDecryptionRequested (voteId : Z)
| ResultsPublished (voteId : Z).

(** The part of the transaction context the contract reads. *)
Record Env : Type := mkEnv {
  msg_sender : address;
  block_timestamp : Z;
}.

Section Contract.
Context `{F : FHEVM}.

(** ** Storage *)

Record Vote : Type := mkVote {
  title : string;
  options : list string;
  startTime : Z;
  endTime : Z;
  creator : address;
  decryptionRequested : bool;
  resultsPublished : bool;
  encryptedCounts : list euint32;
  publicResults : list Z;
}.

(** The value every slot of [mapping(uint256 => Vote)] has before it is
    written. *)
Definition emptyVote : Vote := mkVote "" [] 0 0 0 false false [] [].

Definition set_title (x : string) (v : Vote) : Vote :=
  mkVote x (options v) (startTime v) (endTime v) (creator v)
    (decryptionRequested v) (resultsPublished v) (encryptedCounts v)
    (publicResults v).
Definition set_options (x : list string) (v : Vote) : Vote :=
  mkVote (title v) x (startTime v) (endTime v) (creator v)
    (decryptionRequested v) (resultsPublished v) (encryptedCounts v)
    (publicResults v).
Definition set_startTime (x : Z) (v : Vote) : Vote :=
  mkVote (title v) (options v) x (endTime v) (creator v)
    (decryptionRequested v) (resultsPublished v) (encryptedCounts v)
    (publicResults v).
Definition set_endTime (x : Z) (v : Vote) : Vote :=
  mkVote (title v) (options v) (startTime v) x (creator v)
    (decryptionRequested v) (resultsPublished v) (encryptedCounts v)
    (publicResults v).
Definition set_creator (x : address) (v : Vote) : Vote :=
  mkVote (title v) (options v) (startTime v) (endTime v) x
    (decryptionRequested v) (resultsPublished v) (encryptedCounts v)
    (publicResults v).
Definition set_decryptionRequested (x : bool) (v : Vote) : Vote :=
  mkVote (title v) (options v) (startTime v) (endTime v) (creator v)
    x (resultsPublished v) (encryptedCounts v) (publicResults v).
Definition set_resultsPublished (x : bool) (v : Vote) : Vote :=
  mkVote (title v) (options v) (startTime v) (endTime v) (creator v)
    (decryptionRequested v) x (encryptedCounts v) (publicResults v).
Definition set_encryptedCounts (x : list euint32) (v : Vote) : Vote :=
  mkVote (title v) (options v) (startTime v) (endTime v) (creator v)
    (decryptionRequested v) (resultsPublished v) x (publicResults v).
Definition set_publicResults (x : list Z) (v : Vote) : Vote :=
  mkVote (title v) (options v) (startTime v) (endTime v) (creator v)
    (decryptionRequested v) (resultsPublished v) (encryptedCounts v) x.

(** [vote.options.push(o)] and [vote.encryptedCounts.push(c)]. *)
Definition push_option (o : string) (v : Vote) : Vote :=
  set_options (options v ++ [o]) v.
Definition push_count (c : euint32) (v : Vote) : Vote :=
  set_encryptedCounts (encryptedCounts v ++ [c]) v.

(** The contract's three storage variables, the two access lists the FHE
    library keeps for it (handles the contract may compute on, handles
    anyone may decrypt), and the event log.  The nested mapping
    [_hasVoted[voteId][voter]] is keyed by the pair. *)
Record World : Type := mkWorld {
  _voteCount : Z;
  _votes : gmap Z Vote;
  _hasVoted : gmap (Z * address) bool;
  acl_allowed : list euint32;
  acl_public : list euint32;
  events : list Event;
}.

Definition init : World := mkWorld 0 ∅ ∅ [] [] [].

(** Reading a mapping never fails: an absent key reads as the zero value. *)
Definition votes_at (w : World) (voteId : Z) : Vote :=
  default emptyVote (_votes w !! voteId).
Definition voted_at (w : World) (voteId : Z) (voter : address) : bool :=
  default false (_hasVoted w !! (voteId, voter)).

(** ** Calls as computations that may revert *)

Definition Tx (A : Type) : Type := World → Error + (A * World).

#[export] Instance tx_ret : MRet Tx := λ A a w, inr (a, w).
#[export] Instance tx_bind : MBind Tx := λ A B k m w,
  match m w with
  | inl e => inl e
  | inr (a, w') => k a w'
  end.

Definition revert {A} (e : Error) : Tx A := λ _, inl e.
Definition get : Tx World := λ w, inr (w, w).
Definition modify (f : World → World) : Tx unit := λ w, inr ((), f w).

(** [if (b) revert e;] *)
Definition revert_if (b : bool) (e : Error) : Tx unit :=
  if b then revert e else mret ().

(** Reading through a [Vote storage] reference, and writing one. *)
Definition sload (ref : Z) : Tx Vote := λ w, inr (votes_at w ref, w).
Definition sstore (ref : Z) (f : Vote → Vote) : Tx unit :=
  modify (λ w, mkWorld (_voteCount w) (<[ref := f (votes_at w ref)]> (_votes w))
                 (_hasVoted w) (acl_allowed w) (acl_public w) (events w)).

(** [a[i]] on an array: out of range is [Panic(0x32)]. *)
Definition index {A} (l : list A) (i : nat) : Tx A :=
  match l !! i with
  | Some x => mret x
  | None => revert (Panic 50)
  end.

Definition FHE_allowThis (c : euint32) : Tx unit :=
  modify (λ w, mkWorld (_voteCount w) (_votes w) (_hasVoted w)
                 (c :: acl_allowed w) (acl_public w) (events w)).
Definition FHE_makePubliclyDecryptable (c : euint32) : Tx unit :=
  modify (λ w, mkWorld (_voteCount w) (_votes w) (_hasVoted w)
                 (acl_allowed w) (c :: acl_public w) (events w)).
Definition emit (ev : Event) : Tx unit :=
  modify (λ w, mkWorld (_voteCount w) (_votes w) (_hasVoted w)
                 (acl_allowed w) (acl_public w) (events w ++ [ev])).

(** [for (uint256 i = 0; i < n; i++) body(i)] is [forM_ (seq 0 n) body]. *)
Fixpoint forM_ (l : list nat) (body : nat → Tx unit) : Tx unit :=
  match l with
  | [] => mret ()
  | i :: l' => body i;; forM_ l' body
  end.

(** ** The contract *)

Definition _getVote (voteId : Z) : Tx Z :=
  w ← get;
  revert_if ((voteId =? 0) || (voteId >? _voteCount w)) (VoteNotFound voteId);;
  mret voteId.

(** The body of the loop of [createVote]. *)
Definition createVote_body (vote : Z) (options : list string) (i : nat)
    : Tx unit :=
  o ← index options i;
  sstore vote (push_option o);;
  let zero := FHE_asEuint32 0 in
  sstore vote (push_count zero);;
  v ← sload vote;
  c ← index (encryptedCounts v) i;
  FHE_allowThis c.

Definition createVote (e : Env) (title : string) (options : list string)
    (startTime endTime : Z) : Tx Z :=
  let len := Z.of_nat (length options) in
  revert_if ((len <? 2) || (len >? 4)) (InvalidOptionsCount len);;
  revert_if ((endTime <=? startTime) || (endTime <=? uint64 (block_timestamp e)))
            (InvalidTimeRange startTime endTime);;
  w ← get;
  revert_if (_voteCount w + 1 >? max_uint256) (Panic 17);;
  let voteId := _voteCount w + 1 in
  modify (λ w, mkWorld voteId (_votes w) (_hasVoted w) (acl_allowed w)
                 (acl_public w) (events w));;
  let vote := voteId in
  sstore vote (set_title title);;
  sstore vote (set_startTime startTime);;
  sstore vote (set_endTime endTime);;
  sstore vote (set_creator (msg_sender e));;
  forM_ (seq 0 (length options)) (createVote_body vote options);;
  emit (VoteCreated voteId (msg_sender e) title startTime endTime);;
  mret voteId.

(** One pass of the oblivious increment at index [i]: the new value of
    accumulator [c] for the encrypted [choice]. *)
Definition bump (choice : euint32) (i : nat) (c : euint32) : euint32 :=
  let isSelected := FHE_eq choice (FHE_asEuint32 (uint32 (Z.of_nat i))) in
  let increment := FHE_select isSelected (FHE_asEuint32 1) (FHE_asEuint32 0) in
  FHE_add c increment.

(** The body of the loop of [castVote]. *)
Definition castVote_body (vote : Z) (choice : euint32) (i : nat) : Tx unit :=
  v ← sload vote;
  c ← index (encryptedCounts v) i;
  sstore vote (λ v, set_encryptedCounts
                      (<[i := bump choice i c]> (encryptedCounts v)) v);;
  v ← sload vote;
  c' ← index (encryptedCounts v) i;
  FHE_allowThis c'.

Definition castVote (e : Env) (voteId : Z) (encryptedChoice : externalEuint32)
    (inputProof : bytes) : Tx unit :=
  vote ← _getVote voteId;
  v ← sload vote;
  revert_if (block_timestamp e <? startTime v) (VotingNotStarted voteId);;
  revert_if (block_timestamp e >? endTime v) (VotingEnded voteId);;
  w ← get;
  revert_if (voted_at w voteId (msg_sender e))
            (AlreadyVoted voteId (msg_sender e));;
  modify (λ w, mkWorld (_voteCount w) (_votes w)
                 (<[(voteId, msg_sender e) := true]> (_hasVoted w))
                 (acl_allowed w) (acl_public w) (events w));;
  choice ← match FHE_fromExternal (msg_sender e) encryptedChoice inputProof with
           | Some c => mret c
           | None => revert InputProofInvalid
           end;
  v ← sload vote;
  let optionCount := length (options v) in
  forM_ (seq 0 optionCount) (castVote_body vote choice);;
  emit (VoteCast voteId (msg_sender e)).

(** The body of the loop of [requestResultsDecryption]. *)
Definition requestResultsDecryption_body (vote : Z) (i : nat) : Tx unit :=
  v ← sload vote;
  c ← index (encryptedCounts v) i;
  FHE_makePubliclyDecryptable c.

Definition requestResultsDecryption (e : Env) (voteId : Z) : Tx unit :=
  vote ← _getVote voteId;
  v ← sload vote;
  revert_if (block_timestamp e <=? endTime v) (VotingStillActive voteId);;
  revert_if (decryptionRequested v) (DecryptionAlreadyRequested voteId);;
  sstore vote (set_decryptionRequested true);;
  v ← sload vote;
  forM_ (seq 0 (length (encryptedCounts v)))
        (requestResultsDecryption_body vote);;
  emit (ResultsDecryptionRequested voteId).

(** [handles[i] = euint32.unwrap(vote.encryptedCounts[i])] for
    [i < clearCounts.length], into a fresh memory array. *)
Fixpoint publishResults_handles (counts : list euint32) (l : list nat)
    (handles : list euint32) : Tx (list euint32) :=
  match l with
  | [] => mret handles
  | i :: l' =>
      c ← index counts i;
      publishResults_handles counts l' (handles ++ [c])
  end.

Definition publishResults (e : Env) (voteId : Z) (clearCounts : list Z)
    (decryptionProof : bytes) : Tx unit :=
  vote ← _getVote voteId;
  v ← sload vote;
  revert_if (negb (decryptionRequested v)) (ResultsNotReady voteId);;
  revert_if (resultsPublished v) (ResultsAlreadyPublished voteId);;
  revert_if (negb (Z.of_nat (length clearCounts) =? Z.of_nat (length (options v))))
            (InvalidResultsLength (Z.of_nat (length (options v)))
                                  (Z.of_nat (length clearCounts)));;
  handles ← publishResults_handles (encryptedCounts v)
              (seq 0 (length clearCounts)) [];
  let cleartexts := abi_encode clearCounts in
  revert_if (negb (FHE_checkSignatures handles cleartexts decryptionProof))
            DecryptionProofInvalid;;
  sstore vote (set_publicResults clearCounts);;
  sstore vote (set_resultsPublished true);;
  emit (ResultsPublished voteId).

(** The views. *)
Definition getVoteCount : Tx Z := w ← get; mret (_voteCount w).

Definition getVote (voteId : Z)
    : Tx (string * list string * Z * Z * address * bool * bool) :=
  vote ← _getVote voteId;
  v ← sload vote;
  mret (title v, options v, startTime v, endTime v, creator v,
        decryptionRequested v, resultsPublished v).

Definition getEncryptedCounts (voteId : Z) : Tx (list euint32) :=
  vote ← _getVote voteId;
  v ← sload vote;
  mret (encryptedCounts v).

Definition getPublicResults (voteId : Z) : Tx (list Z) :=
  vote ← _getVote voteId;
  v ← sload vote;
  revert_if (negb (resultsPublished v)) (ResultsNotReady voteId);;
  mret (publicResults v).

Definition hasVoted (voteId : Z) (voter : address) : Tx bool :=
  _getVote voteId;;
  w ← get;
  mret (voted_at w voteId voter).

(** ** Transactions *)

(** The state-changing entry points with their calldata. *)
Inductive Call : Type :=
| CreateVote (title : string) (options : list string) (startTime endTime : Z)
| CastVote (voteId : Z) (encryptedChoice : externalEuint32) (inputProof : bytes)
| RequestResultsDecryption (voteId : Z)
| PublishResults (voteId : Z) (clearCounts : list Z) (decryptionProof : bytes).

Definition dispatch (e : Env) (c : Call) : Tx unit :=
  match c with
  | CreateVote t o s n => createVote e t o s n;; mret ()
  | CastVote i c p => castVote e i c p
  | RequestResultsDecryption i => requestResultsDecryption e i
  | PublishResults i c p => publishResults e i c p
  end.

(** A transaction that reverts leaves the world as it found it. *)
Definition step (e : Env) (c : Call) (w : World) : World :=
  match dispatch e c w with
  | inr (_, w') => w'
  | inl _ => w
  end.

Definition outcome {A} (r : Error + (A * World)) : option Error :=
  match r with
  | inl err => Some err
  | inr _ => None
  end.

Definition succeeds {A} (r : Error + (A * World)) : Prop := outcome r = None.

(** Calldata and context as the ABI types bound them.  Block timestamps
    are 64-bit on the host chain. *)
Definition wf_env (e : Env) : Prop :=
  0 ≤ msg_sender e < 2 ^ 160 ∧ 0 ≤ block_timestamp e < 2 ^ 64.

Definition wf_call (c : Call) : Prop :=
  match c with
  | CreateVote _ _ s n => 0 ≤ s < 2 ^ 64 ∧ 0 ≤ n < 2 ^ 64
  | CastVote i _ _ => 0 ≤ i < 2 ^ 256
  | RequestResultsDecryption i => 0 ≤ i < 2 ^ 256
  | PublishResults i cs _ => 0 ≤ i < 2 ^ 256 ∧ Forall (λ x, 0 ≤ x < 2 ^ 32) cs
  end.

(** Worlds reached from deployment by any sequence of well-typed
    transactions. *)
Inductive reachable : World → Prop :=
| reachable_init : reachable init
| reachable_step e c w : wf_call c → reachable w → reachable (step e c w).

Fixpoint run (tr : list (Env * Call)) (w : World) : World :=
  match tr with
  | [] => w
  | (e, c) :: tr' => run tr' (step e c w)
  end.

(** The clear choices of the ballots accepted for poll [voteId] along a
    sequence of transactions, in order. *)
Definition ballot (voteId : Z) (e : Env) (c : Call) (w : World) : list Z :=
  match c with
  | CastVote i x p =>
      if bool_decide (i = voteId) then
        match castVote e i x p w, FHE_fromExternal (msg_sender e) x p with
        | inr _, Some choice => [decrypt choice]
        | _, _ => []
        end
      else []
  | _ => []
  end.

Fixpoint ballots (voteId : Z) (tr : list (Env * Call)) (w : World) : list Z :=
  match tr with
  | [] => []
  | (e, c) :: tr' => ballot voteId e c w ++ ballots voteId tr' (step e c w)
  end.

(** How many of the clear choices [l] are option [i]. *)
Definition votes_for (i : nat) (l : list Z) : Z :=
  Z.of_nat (length (filter (λ x, x = Z.of_nat i) l)).

(** The decrypted accumulators of a poll. *)
Definition tally (w : World) (voteId : Z) : list Z :=
  decrypt <$> encryptedCounts (votes_at w voteId).

(** ** Auxiliary notions for the proofs *)

(** The accumulators after the passes [s], ..., [s + n - 1] of the loop of
    [castVote]. *)
Definition bump_range (choice : euint32) (s n : nat) (l : list euint32)
    : list euint32 :=
  imap (λ j c, if bool_decide (s ≤ j < s + n)%nat then bump choice j c else c) l.

(** What holds of a stored poll, and of the storage, in every reachable
    world. *)
Record vote_ok (v : Vote) : Prop := mk_vote_ok {
  ok_options : (2 ≤ length (options v) ≤ 4)%nat;
  ok_counts : length (encryptedCounts v) = length (options v);
  ok_times : startTime v < endTime v;
  ok_flags : resultsPublished v = true → decryptionRequested v = true;
  ok_results : resultsPublished v = true →
    length (publicResults v) = length (options v);
}.

Record wf (w : World) : Prop := mk_wf {
  wf_count : 0 ≤ _voteCount w;
  wf_slots : ∀ i, is_Some (_votes w !! i) ↔ 1 ≤ i ≤ _voteCount w;
  wf_votes : ∀ i v, _votes w !! i = Some v → vote_ok v;
}.

(** What a transaction that does not revert does to the world: the
    relational reading of the four entry points, proved below to be what
    [dispatch] computes. *)
Inductive effect (e : Env) (w : World) : Call → World → Prop :=
| effect_create t o s n :
    (2 ≤ length o ≤ 4)%nat →
    s < n →
    uint64 (block_timestamp e) < n →
    _voteCount w + 1 ≤ max_uint256 →
    effect e w (CreateVote t o s n)
      (mkWorld (_voteCount w + 1)
         (<[_voteCount w + 1 :=
              mkVote t o s n (msg_sender e) false false
                (replicate (length o) (FHE_asEuint32 0)) []]> (_votes w))
         (_hasVoted w)
         (replicate (length o) (FHE_asEuint32 0) ++ acl_allowed w)
         (acl_public w)
         (events w ++ [VoteCreated (_voteCount w + 1) (msg_sender e) t s n]))
| effect_cast i x p v choice :
    _votes w !! i = Some v →
    startTime v ≤ block_timestamp e ≤ endTime v →
    voted_at w i (msg_sender e) = false →
    FHE_fromExternal (msg_sender e) x p = Some choice →
    effect e w (CastVote i x p)
      (mkWorld (_voteCount w)
         (<[i := set_encryptedCounts
                   (imap (bump choice) (encryptedCounts v)) v]> (_votes w))
         (<[(i, msg_sender e) := true]> (_hasVoted w))
         (rev (imap (bump choice) (encryptedCounts v)) ++ acl_allowed w)
         (acl_public w)
         (events w ++ [VoteCast i (msg_sender e)]))
| effect_request i v :
    _votes w !! i = Some v →
    endTime v < block_timestamp e →
    decryptionRequested v = false →
    effect e w (RequestResultsDecryption i)
      (mkWorld (_voteCount w)
         (<[i := set_decryptionRequested true v]> (_votes w))
         (_hasVoted w) (acl_allowed w)
         (rev (encryptedCounts v) ++ acl_public w)
         (events w ++ [ResultsDecryptionRequested i]))
| effect_publish i cs p v :
    _votes w !! i = Some v →
    decryptionRequested v = true →
    resultsPublished v = false →
    length cs = length (options v) →
    FHE_checkSignatures (encryptedCounts v) (abi_encode cs) p = true →
    effect e w (PublishResults i cs p)
      (mkWorld (_voteCount w)
         (<[i := set_resultsPublished true (set_publicResults cs v)]>
            (_votes w))
         (_hasVoted w) (acl_allowed w) (acl_public w)
         (events w ++ [ResultsPublished i])).

(** [w'] is reached from [w] by further well-typed transactions. *)
Inductive later (w : World) : World → Prop :=
| later_refl : later w w
| later_step e c w' : wf_call c → later w w' → later w (step e c w').

(** What never changes about a stored poll once it is there: its static
    fields, a flag that has been raised and results that have been
    published. *)
Definition persists (v v' : Vote) : Prop :=
  title v' = title v ∧ options v' = options v ∧
  startTime v' = startTime v ∧ endTime v' = endTime v ∧
  creator v' = creator v ∧
  (decryptionRequested v = true → decryptionRequested v' = true) ∧
  (resultsPublished v = true →
     resultsPublished v' = true ∧ publicResults v' = publicResults v).

(** ** Histories in block order *)

(** The id a [VoteCreated] event carries. *)
Definition created_id (ev : Event) : option Z :=
  match ev with
  | VoteCreated i _ _ _ _ => Some i
  | _ => None
  end.

(** A sequence of well-typed transactions whose block timestamps do not
    decrease, the first being at [t] or later, and the timestamp of its
    last block. *)
Fixpoint chronological (t : Z) (tr : list (Env * Call)) : Prop :=
  match tr with
  | [] => True
  | (e, c) :: tr' =>
      wf_call c ∧ t ≤ block_timestamp e ∧ chronological (block_timestamp e) tr'
  end.

Fixpoint last_time (t : Z) (tr : list (Env * Call)) : Z :=
  match tr with
  | [] => t
  | (e, _) :: tr' => last_time (block_timestamp e) tr'
  end.

(** Worlds reached from deployment by transactions taken in block order;
    the index is the timestamp of the last block. *)
Inductive chrono : Z → World → Prop :=
| chrono_init : chrono 0 init
| chrono_step t e c w :
    chrono t w → wf_call c → t ≤ block_timestamp e →
    chrono (block_timestamp e) (step e c w).

(** What holds of a poll whose decryption was requested, in block order:
    its window is over, its accumulators are publicly decryptable, and its
    published results come with a proof that verifies against them. *)
Record closed_ok (t : Z) (w : World) (v : Vote) : Prop := mk_closed_ok {
  closed_time : endTime v < t;
  closed_public : ∀ x, x ∈ encryptedCounts v → x ∈ acl_public w;
  closed_results : resultsPublished v = true →
    Forall (λ x, 0 ≤ x < 2 ^ 32) (publicResults v) ∧
    ∃ p, FHE_checkSignatures (encryptedCounts v)
           (abi_encode (publicResults v)) p = true;
}.

(** What the event log says about the storage. *)
Record log_ok (w : World) : Prop := mk_log_ok {
  log_cast : ∀ i a, VoteCast i a ∈ events w ↔ voted_at w i a = true;
  log_requested : ∀ i,
    ResultsDecryptionRequested i ∈ events w
      ↔ decryptionRequested (votes_at w i) = true;
  log_published : ∀ i,
    ResultsPublished i ∈ events w ↔ resultsPublished (votes_at w i) = true;
  log_created : ∀ i c t s n,
    VoteCreated i c t s n ∈ events w
      ↔ 1 ≤ i ≤ _voteCount w ∧
        creator (votes_at w i) = c ∧ title (votes_at w i) = t ∧
        startTime (votes_at w i) = s ∧ endTime (votes_at w i) = n;
  log_nodup : NoDup (events w);
}.

End Contract.

Arguments Vote {F}.
Arguments World {F}.
Arguments Call {F}.

(** ** The client *)

(** The pure helpers of the web client ([VoteApp]).  [Number] is the
    conversion of a [bigint] to a JavaScript number, exact on the safe
    integers; it is a parameter. *)
Module VoteApp.

Record VoteEntry : Type := mkVoteEntry {
  id : Z;
  title : string;
  options : list string;
  startTime : Z;
  endTime : Z;
  creator : address;
  decryptionRequested : bool;
  resultsPublished : bool;
}.

Record Status : Type := mkStatus {
  label : string;
  tone : string;
  isActive : bool;
  isEnded : bool;
  isUpcoming : bool;
}.

Definition getStatus (Number : Z → Z) (vote : VoteEntry) (now : Z) : Status :=
  let start := Number (startTime vote) in
  let end_ := Number (endTime vote) in
  let isUpcoming := now <? start in
  let isEnded := now >? end_ in
  let isActive := negb isUpcoming && negb isEnded in
  if isUpcoming
  then mkStatus "Upcoming" "status-upcoming" isActive isEnded isUpcoming
  else if isEnded
  then mkStatus "Ended" "status-ended" isActive isEnded isUpcoming
  else mkStatus "Live" "status-live" isActive isEnded isUpcoming.

(** [voteIds]: [voteCount] is [None] while the count is not loaded; an
    array longer than [2^32 - 1] is a [RangeError], here [None]. *)
Definition voteIds (Number : Z → Z) (voteCount : option Z) : option (list Z) :=
  let count :=
    match voteCount with
    | Some c => if c =? 0 then 0 else Number c
    | None => 0
    end in
  if count <? 2 ^ 32
  then Some ((λ index, Z.of_nat index + 1) <$> seq 0 (Z.to_nat count))
  else None.

(** [publishedVoteIds]: the ids whose results the client reads. *)
Definition publishedVoteIds (votes : list VoteEntry) : list Z :=
  (λ vote, id vote) <$> filter (λ vote, resultsPublished vote = true) votes.

End VoteApp.

(** ** A test double of the capability *)

(** Ciphertexts are the clear 32-bit values themselves.  An input proof or
    a decryption proof is accepted when it is not empty; a decryption proof
    moreover has to come with the true clear values, encoded the way
    [publishResults] encodes them.  This is a signer made for the contract:
    it exercises the path on which results are published. *)
#[export] Instance MockFHE : FHEVM.
Proof.
  refine {|
    euint32 := Z;
    ebool := bool;
    externalEuint32 := Z;
    FHE_asEuint32 := λ v, v;
    FHE_eq := λ a b, bool_decide (a mod 2 ^ 32 = b mod 2 ^ 32);
    FHE_select := λ c a b, if c then a else b;
    FHE_add := λ a b, (a + b) mod 2 ^ 32;
    FHE_fromExternal := λ _ h p, match p with [] => None | _ => Some h end;
    FHE_checkSignatures := λ hs cleartexts p,
      match p with
      | [] => false
      | _ => bytes_eqb cleartexts (abi_encode ((λ h, h mod 2 ^ 32) <$> hs))
      end;
    decrypt := λ c, c mod 2 ^ 32;
    decrypt_bool := λ b, b
  |}.
  - abstract (intros c; apply Z.mod_pos_bound; reflexivity).
  - abstract (intros v Hv; apply Z.mod_small; exact Hv).
  - abstract reflexivity.
  - abstract (intros [] a b; reflexivity).
  - abstract (intros a b; rewrite Z.mod_mod by discriminate;
              apply Z.add_mod; discriminate).
Defined.

(** ** The check of the library as deployed *)

(** Modelled from the spec: the library is not part of the repository.
    Its check, [verify_decryption(Ciphertext[], claimed_plain_values[],
    proof)] in the spec, takes the claimed values one per ciphertext: the
    decryption service signs the handles together with
    [abi.encode(v_0, ..., v_{k-1})] of their clear values, one word per
    handle in the order of the handles, and the proof it returns is the
    one the web client sends on to [publishResults].  This double is the
    one above except that its check accepts that payload. *)
Definition GatewayFHE : FHEVM.
Proof.
  refine {|
    euint32 := Z;
    ebool := bool;
    externalEuint32 := Z;
    FHE_asEuint32 := λ v, v;
    FHE_eq := λ a b, bool_decide (a mod 2 ^ 32 = b mod 2 ^ 32);
    FHE_select := λ c a b, if c then a else b;
    FHE_add := λ a b, (a + b) mod 2 ^ 32;
    FHE_fromExternal := λ _ h p, match p with [] => None | _ => Some h end;
    FHE_checkSignatures := λ hs cleartexts p,
      match p with
      | [] => false
      | _ =>
          bytes_eqb cleartexts (abi_encode_values ((λ h, h mod 2 ^ 32) <$> hs))
      end;
    decrypt := λ c, c mod 2 ^ 32;
    decrypt_bool := λ b, b
  |}.
  - abstract (intros c; apply Z.mod_pos_bound; reflexivity).
  - abstract (intros v Hv; apply Z.mod_small; exact Hv).
  - abstract reflexivity.
  - abstract (intros [] a b; reflexivity).
  - abstract (intros a b; rewrite Z.mod_mod by discriminate;
              apply Z.add_mod; discriminate).
Defined.

(** ** A concrete run on the test double *)

(** A poll with two options, open from 110 to 3700, created at time 100 by
    account 7.  Accounts 1, 2 and 3 vote for options 0, 1 and 0; decryption
    is requested at 3701 and the results are published at 3702. *)
Definition handle_of (x : Z) : @externalEuint32 MockFHE := x.
Definition proof_ok : bytes := [Byte.x01].
Definition env_create : Env := mkEnv 7 100.
Definition lunch : Call := CreateVote "Lunch" ["A"; "B"] 110 3700.
Definition w_created : World := step env_create lunch init.
Definition ballots_cast : list (Env * Call) :=
  [ (mkEnv 1 120, CastVote 1 (handle_of 0) proof_ok);
    (mkEnv 2 120, CastVote 1 (handle_of 1) proof_ok);
    (mkEnv 3 130, CastVote 1 (handle_of 0) proof_ok) ].
Definition w_voted : World := run ballots_cast w_created.
Definition env_request : Env := mkEnv 3 3701.
Definition w_requested : World :=
  step env_request (RequestResultsDecryption 1) w_voted.
Definition env_publish : Env := mkEnv 3 3702.
Definition w_published : World :=
  step env_publish (PublishResults 1 [2; 1] proof_ok) w_requested.

(** The whole run as one history, and the entry the client holds for the
    poll. *)
Definition history : list (Env * Call) :=
  (env_create, lunch) :: ballots_cast ++
  [ (env_request, RequestResultsDecryption 1);
    (env_publish, PublishResults 1 [2; 1] proof_ok) ].
Definition w_final : World := run history init.

(** The same poll and ballots on the deployed check, up to the request
    for decryption. *)
Definition gateway_history : list (Env * @Call GatewayFHE) :=
  [ (env_create, CreateVote (F:=GatewayFHE) "Lunch" ["A"; "B"] 110 3700);
    (mkEnv 1 120, CastVote (F:=GatewayFHE) 1 0 proof_ok);
    (mkEnv 2 120, CastVote (F:=GatewayFHE) 1 1 proof_ok);
    (mkEnv 3 130, CastVote (F:=GatewayFHE) 1 0 proof_ok);
    (env_request, RequestResultsDecryption (F:=GatewayFHE) 1) ].
Definition w_gateway : @World GatewayFHE :=
  run gateway_history (@init GatewayFHE).
Definition lunch_entry (requested published : bool) : VoteApp.VoteEntry :=
  VoteApp.mkVoteEntry 1 "Lunch" ["A"; "B"] 110 3700 7 requested published.

(** [n] accounts, numbered from [s], each casting a ballot for option 0 of
    poll 1 at time 120. *)
Definition crowd (s n : nat) : list (Env * Call) :=
  (λ a, (mkEnv (Z.of_nat a) 120, CastVote 1 (handle_of 0) proof_ok))
    <$> seq s n.


(** * Proofs *)

Section Proofs.
Context `{F : FHEVM}.

Implicit Types (w : World) (v : Vote) (e : Env).

Ltac tx_unfold :=
  repeat (progress (
    unfold mbind, tx_bind, mret, tx_ret, revert_if, revert, get, modify,
      sload, sstore, index, emit, FHE_allowThis, FHE_makePubliclyDecryptable;
    cbn beta iota;
    cbn [_voteCount _votes _hasVoted acl_allowed acl_public events])).

(** Boolean tests of the code as propositions. *)
Ltac b2p :=
  repeat match goal with
  | H : (_ || _) = false |- _ => apply orb_false_iff in H as [? ?]
  | H : (_ || _) = true |- _ => apply orb_true_iff in H
  | H : (_ >? _) = _ |- _ => rewrite Z.gtb_ltb in H
  | H : (_ <? _) = false |- _ => apply Z.ltb_ge in H
  | H : (_ <? _) = true |- _ => apply Z.ltb_lt in H
  | H : (_ <=? _) = false |- _ => apply Z.leb_gt in H
  | H : (_ <=? _) = true |- _ => apply Z.leb_le in H
  | H : (_ =? _) = false |- _ => apply Z.eqb_neq in H
  | H : (_ =? _) = true |- _ => apply Z.eqb_eq in H
  | H : negb _ = false |- _ => apply negb_false_iff in H
  | H : negb _ = true |- _ => apply negb_true_iff in H
  end.

(** ** Storage reads after writes *)

Lemma votes_at_insert n m h a p ev i v :
  votes_at (mkWorld n (<[i := v]> m) h a p ev) i = v.
Proof. unfold votes_at; simpl. by rewrite lookup_insert_eq. Qed.

Lemma votes_at_Some w i v : _votes w !! i = Some v → votes_at w i = v.
Proof. unfold votes_at. by intros ->. Qed.

Lemma votes_at_None w i : _votes w !! i = None → votes_at w i = emptyVote.
Proof. unfold votes_at. by intros ->. Qed.

Lemma votes_at_update w n i j u h a p ev :
  votes_at (mkWorld n (<[i := u]> (_votes w)) h a p ev) j =
    if decide (i = j) then u else votes_at w j.
Proof.
  unfold votes_at. cbn [_votes]. case_decide as Hij.
  - subst. by rewrite lookup_insert_eq.
  - by rewrite lookup_insert_ne.
Qed.

(** ** The three loops *)

Lemma bump_range_lookup choice s n l j :
  bump_range choice s n l !! j =
    (λ c, if bool_decide (s ≤ j < s + n)%nat then bump choice j c else c)
      <$> l !! j.
Proof. unfold bump_range. by rewrite list_lookup_imap. Qed.

Lemma bump_range_nil choice s l : bump_range choice s 0 l = l.
Proof.
  apply list_eq; intros j. rewrite bump_range_lookup.
  rewrite bool_decide_eq_false_2 by lia. by destruct (l !! j).
Qed.

Lemma bump_range_step choice s n l c :
  l !! s = Some c →
  bump_range choice (S s) n (<[s := bump choice s c]> l) =
  bump_range choice s (S n) l.
Proof.
  intros Hs. apply list_eq; intros j. rewrite !bump_range_lookup.
  destruct (decide (j = s)) as [->|Hne].
  - rewrite list_lookup_insert_eq by (by eapply lookup_lt_Some).
    rewrite Hs; simpl.
    rewrite bool_decide_eq_false_2 by lia.
    by rewrite bool_decide_eq_true_2 by lia.
  - rewrite list_lookup_insert_ne by done.
    destruct (l !! j); simpl; [|done].
    by rewrite (bool_decide_ext (S s ≤ j < S s + n)%nat (s ≤ j < s + S n)%nat)
      by lia.
Qed.

Lemma bump_range_all choice l :
  bump_range choice 0 (length l) l = imap (bump choice) l.
Proof.
  apply list_eq; intros j. rewrite bump_range_lookup, list_lookup_imap.
  destruct (l !! j) eqn:Hj; simpl; [|done].
  apply lookup_lt_Some in Hj. by rewrite bool_decide_eq_true_2 by lia.
Qed.

Lemma forM_cons i l (body : nat → Tx unit) w :
  forM_ (i :: l) body w =
    match body i w with
    | inl err => inl err
    | inr (_, w') => forM_ l body w'
    end.
Proof. reflexivity. Qed.

Lemma castVote_body_eq vote choice i w v c :
  _votes w !! vote = Some v →
  encryptedCounts v !! i = Some c →
  castVote_body vote choice i w =
    inr ((), mkWorld (_voteCount w)
      (<[vote := set_encryptedCounts
                   (<[i := bump choice i c]> (encryptedCounts v)) v]> (_votes w))
      (_hasVoted w) (bump choice i c :: acl_allowed w)
      (acl_public w) (events w)).
Proof.
  intros Hv Hc. unfold castVote_body. tx_unfold.
  rewrite (votes_at_Some _ _ _ Hv), Hc. tx_unfold.
  rewrite ?votes_at_insert, ?(votes_at_Some _ _ _ Hv).
  cbn [encryptedCounts set_encryptedCounts].
  rewrite list_lookup_insert_eq by (by eapply lookup_lt_Some).
  by tx_unfold.
Qed.

Lemma castVote_loop vote choice n : ∀ s w v,
  _votes w !! vote = Some v →
  (s + n ≤ length (encryptedCounts v))%nat →
  forM_ (seq s n) (castVote_body vote choice) w =
    inr ((), mkWorld (_voteCount w)
      (<[vote := set_encryptedCounts
                   (bump_range choice s n (encryptedCounts v)) v]> (_votes w))
      (_hasVoted w)
      (rev (take n (drop s (bump_range choice s n (encryptedCounts v))))
         ++ acl_allowed w)
      (acl_public w) (events w)).
Proof.
  induction n as [|n IH]; intros s w v Hv Hlen.
  - simpl. rewrite bump_range_nil. unfold mret, tx_ret.
    destruct w, v; simpl in *. by rewrite insert_id.
  - destruct (lookup_lt_is_Some_2 (encryptedCounts v) s) as [c Hc]; [lia|].
    cbn [seq]. rewrite forM_cons, (castVote_body_eq _ _ _ _ _ _ Hv Hc).
    erewrite IH; cycle 1.
    + cbn [_votes]. apply lookup_insert_eq.
    + cbn [encryptedCounts set_encryptedCounts]. rewrite length_insert. lia.
    + cbn [_voteCount _votes _hasVoted acl_allowed acl_public events
           encryptedCounts set_encryptedCounts].
      rewrite insert_insert_eq. rewrite (bump_range_step _ _ _ _ _ Hc).
      set (C := bump_range choice s (S n) (encryptedCounts v)).
      assert (HC : C !! s = Some (bump choice s c)).
      { unfold C. rewrite bump_range_lookup, Hc. simpl.
        by rewrite bool_decide_eq_true_2 by lia. }
      rewrite (drop_S _ _ _ HC). cbn [take rev].
      by rewrite <- app_assoc.
Qed.

Lemma requestResultsDecryption_loop vote n : ∀ s w,
  (s + n ≤ length (encryptedCounts (votes_at w vote)))%nat →
  forM_ (seq s n) (requestResultsDecryption_body vote) w =
    inr ((), mkWorld (_voteCount w) (_votes w) (_hasVoted w) (acl_allowed w)
      (rev (take n (drop s (encryptedCounts (votes_at w vote)))) ++ acl_public w)
      (events w)).
Proof.
  induction n as [|n IH]; intros s w Hlen.
  - by destruct w.
  - destruct (lookup_lt_is_Some_2 (encryptedCounts (votes_at w vote)) s)
      as [c Hc]; [lia|].
    cbn [seq]. rewrite forM_cons. unfold requestResultsDecryption_body.
    tx_unfold. rewrite Hc. tx_unfold.
    rewrite IH by (unfold votes_at in *; simpl; lia).
    unfold votes_at in *; cbn [_voteCount _votes _hasVoted acl_allowed
      acl_public events].
    rewrite (drop_S _ _ _ Hc). cbn [take rev]. by rewrite <- app_assoc.
Qed.

Lemma replicate_app_cons {A} n (x : A) l :
  replicate n x ++ x :: l = x :: replicate n x ++ l.
Proof. induction n as [|n IH]; simpl; [done|]. by rewrite IH. Qed.

Lemma createVote_body_eq vote opts i w v o :
  _votes w !! vote = Some v →
  opts !! i = Some o →
  length (encryptedCounts v) = i →
  createVote_body vote opts i w =
    inr ((), mkWorld (_voteCount w)
      (<[vote := push_count (FHE_asEuint32 0) (push_option o v)]> (_votes w))
      (_hasVoted w) (FHE_asEuint32 0 :: acl_allowed w)
      (acl_public w) (events w)).
Proof.
  intros Hv Ho Hlen. unfold createVote_body. tx_unfold. rewrite Ho. tx_unfold.
  rewrite ?votes_at_insert, ?(votes_at_Some _ _ _ Hv).
  cbn [encryptedCounts push_count push_option set_encryptedCounts set_options].
  rewrite lookup_app_r by lia. rewrite Hlen, Nat.sub_diag. cbn.
  by rewrite insert_insert_eq.
Qed.

Lemma createVote_loop vote opts n : ∀ s w v,
  _votes w !! vote = Some v →
  length (encryptedCounts v) = s →
  (s + n ≤ length opts)%nat →
  forM_ (seq s n) (createVote_body vote opts) w =
    inr ((), mkWorld (_voteCount w)
      (<[vote := set_encryptedCounts
                   (encryptedCounts v ++ replicate n (FHE_asEuint32 0))
                   (set_options (options v ++ take n (drop s opts)) v)]>
         (_votes w))
      (_hasVoted w) (replicate n (FHE_asEuint32 0) ++ acl_allowed w)
      (acl_public w) (events w)).
Proof.
  induction n as [|n IH]; intros s w v Hv Hs Hlen.
  - simpl. rewrite !app_nil_r. unfold mret, tx_ret.
    destruct w, v; simpl in *. by rewrite insert_id.
  - destruct (lookup_lt_is_Some_2 opts s) as [o Ho]; [lia|].
    cbn [seq]. rewrite forM_cons, (createVote_body_eq _ _ _ _ _ _ Hv Ho Hs).
    erewrite IH; cycle 1.
    + cbn [_votes]. apply lookup_insert_eq.
    + cbn. rewrite length_app. simpl. lia.
    + lia.
    + cbn [_voteCount _votes _hasVoted acl_allowed acl_public events].
      rewrite insert_insert_eq. rewrite (drop_S _ _ _ Ho).
      cbn [take replicate push_count push_option encryptedCounts options
           set_encryptedCounts set_options].
      rewrite <- !app_assoc. cbn [app].
      by rewrite replicate_app_cons.
Qed.

Lemma publishResults_handles_eq counts n : ∀ s acc w,
  (s + n ≤ length counts)%nat →
  publishResults_handles counts (seq s n) acc w =
    inr (acc ++ take n (drop s counts), w).
Proof.
  induction n as [|n IH]; intros s acc w Hlen.
  - simpl. by rewrite app_nil_r.
  - destruct (lookup_lt_is_Some_2 counts s) as [c Hc]; [lia|].
    cbn [seq publishResults_handles]. tx_unfold. rewrite Hc. tx_unfold.
    rewrite IH by lia. rewrite (drop_S _ _ _ Hc). cbn [take].
    by rewrite <- app_assoc.
Qed.

(** ** Each entry point as a cascade of checks and one final world *)

Lemma exists_slot w i :
  wf w → 0 ≤ i → (i =? 0) || (i >? _voteCount w) = false →
  ∃ v, _votes w !! i = Some v ∧ votes_at w i = v ∧ vote_ok v.
Proof.
  intros Hwf Hi Hex. apply orb_false_iff in Hex as [H0 Hc].
  apply Z.eqb_neq in H0. rewrite Z.gtb_ltb in Hc. apply Z.ltb_ge in Hc.
  destruct (proj2 (wf_slots w Hwf i)) as [v Hv]; [lia|].
  exists v. split_and!; [done|by apply votes_at_Some|by eapply wf_votes].
Qed.

Lemma createVote_eq e t o s n w :
  wf w →
  createVote e t o s n w =
    let len := Z.of_nat (length o) in
    if (len <? 2) || (len >? 4) then inl (InvalidOptionsCount len)
    else if (n <=? s) || (n <=? uint64 (block_timestamp e))
    then inl (InvalidTimeRange s n)
    else if _voteCount w + 1 >? max_uint256 then inl (Panic 17)
    else inr (_voteCount w + 1,
      mkWorld (_voteCount w + 1)
        (<[_voteCount w + 1 :=
             mkVote t o s n (msg_sender e) false false
               (replicate (length o) (FHE_asEuint32 0)) []]> (_votes w))
        (_hasVoted w)
        (replicate (length o) (FHE_asEuint32 0) ++ acl_allowed w)
        (acl_public w)
        (events w ++ [VoteCreated (_voteCount w + 1) (msg_sender e) t s n])).
Proof.
  intros Hwf. unfold createVote. tx_unfold.
  destruct (_ || _); [done|]. tx_unfold.
  destruct (_ || _); [done|]. tx_unfold.
  destruct (_ >? _); [done|]. tx_unfold.
  assert (Hnone : _votes w !! (_voteCount w + 1) = None).
  { apply eq_None_not_Some. rewrite (wf_slots w Hwf). lia. }
  unfold votes_at. cbn [_votes]. rewrite ?lookup_insert_eq, Hnone.
  cbn [default].
  erewrite createVote_loop; cycle 1.
  - cbn [_votes]. apply lookup_insert_eq.
  - reflexivity.
  - simpl. lia.
  - tx_unfold.
    cbn [_voteCount _votes _hasVoted acl_allowed acl_public events].
    rewrite !insert_insert_eq. cbn. by rewrite firstn_all.
Qed.

Lemma castVote_eq e i x p w :
  wf w → 0 ≤ i →
  castVote e i x p w =
    if (i =? 0) || (i >? _voteCount w) then inl (VoteNotFound i)
    else
      let v := votes_at w i in
      if block_timestamp e <? startTime v then inl (VotingNotStarted i)
      else if block_timestamp e >? endTime v then inl (VotingEnded i)
      else if voted_at w i (msg_sender e)
      then inl (AlreadyVoted i (msg_sender e))
      else match FHE_fromExternal (msg_sender e) x p with
           | None => inl InputProofInvalid
           | Some choice =>
               inr ((), mkWorld (_voteCount w)
                 (<[i := set_encryptedCounts
                           (imap (bump choice) (encryptedCounts v)) v]>
                    (_votes w))
                 (<[(i, msg_sender e) := true]> (_hasVoted w))
                 (rev (imap (bump choice) (encryptedCounts v)) ++ acl_allowed w)
                 (acl_public w)
                 (events w ++ [VoteCast i (msg_sender e)]))
           end.
Proof.
  intros Hwf Hi. unfold castVote, _getVote. tx_unfold.
  destruct (_ || _) eqn:Hex; [done|]. tx_unfold.
  destruct (exists_slot w i Hwf Hi Hex) as (v & Hv & -> & Hok). cbn zeta.
  destruct (block_timestamp e <? startTime v); [done|]. tx_unfold.
  destruct (block_timestamp e >? endTime v); [done|]. tx_unfold.
  destruct (voted_at _ _ _); [done|]. tx_unfold.
  destruct (FHE_fromExternal _ _ _) as [choice|]; [|done]. tx_unfold.
  unfold votes_at at 1. cbn [_votes]. rewrite Hv.
  cbn [default from_option id].
  erewrite castVote_loop; cycle 1.
  - cbn [_votes]. exact Hv.
  - rewrite (ok_counts v Hok). simpl. lia.
  - tx_unfold.
    cbn [_voteCount _votes _hasVoted acl_allowed acl_public events].
    rewrite <- (ok_counts v Hok), bump_range_all. cbn [drop].
    rewrite <- (length_imap (bump choice)). by rewrite firstn_all.
Qed.

Lemma requestResultsDecryption_eq e i w :
  requestResultsDecryption e i w =
    if (i =? 0) || (i >? _voteCount w) then inl (VoteNotFound i)
    else
      let v := votes_at w i in
      if block_timestamp e <=? endTime v then inl (VotingStillActive i)
      else if decryptionRequested v then inl (DecryptionAlreadyRequested i)
      else inr ((), mkWorld (_voteCount w)
             (<[i := set_decryptionRequested true v]> (_votes w))
             (_hasVoted w) (acl_allowed w)
             (rev (encryptedCounts v) ++ acl_public w)
             (events w ++ [ResultsDecryptionRequested i])).
Proof.
  unfold requestResultsDecryption, _getVote. tx_unfold.
  destruct (_ || _); [done|]. tx_unfold. cbn zeta.
  destruct (_ <=? _); [done|]. tx_unfold.
  destruct (decryptionRequested _); [done|]. tx_unfold.
  rewrite ?votes_at_insert. cbn [encryptedCounts set_decryptionRequested].
  rewrite requestResultsDecryption_loop
    by (rewrite votes_at_insert; simpl; lia).
  tx_unfold. rewrite votes_at_insert.
  cbn [_voteCount _votes _hasVoted acl_allowed acl_public events
       encryptedCounts set_decryptionRequested].
  by rewrite firstn_all.
Qed.

Lemma publishResults_eq e i cs p w :
  wf w → 0 ≤ i →
  publishResults e i cs p w =
    if (i =? 0) || (i >? _voteCount w) then inl (VoteNotFound i)
    else
      let v := votes_at w i in
      if negb (decryptionRequested v) then inl (ResultsNotReady i)
      else if resultsPublished v then inl (ResultsAlreadyPublished i)
      else if negb (Z.of_nat (length cs) =? Z.of_nat (length (options v)))
      then inl (InvalidResultsLength (Z.of_nat (length (options v)))
                                     (Z.of_nat (length cs)))
      else if negb (FHE_checkSignatures (encryptedCounts v) (abi_encode cs) p)
      then inl DecryptionProofInvalid
      else inr ((), mkWorld (_voteCount w)
             (<[i := set_resultsPublished true (set_publicResults cs v)]>
                (_votes w))
             (_hasVoted w) (acl_allowed w) (acl_public w)
             (events w ++ [ResultsPublished i])).
Proof.
  intros Hwf Hi. unfold publishResults, _getVote. tx_unfold.
  destruct (_ || _) eqn:Hex; [done|]. tx_unfold.
  destruct (exists_slot w i Hwf Hi Hex) as (v & Hv & -> & Hok). cbn zeta.
  destruct (negb (decryptionRequested _)); [done|]. tx_unfold.
  destruct (resultsPublished _); [done|]. tx_unfold.
  destruct (Z.of_nat (length cs) =? _) eqn:Hlen; [|done].
  apply Z.eqb_eq in Hlen. cbn [negb]. tx_unfold.
  rewrite publishResults_handles_eq by (rewrite (ok_counts v Hok); lia).
  cbn [app drop].
  replace (length cs) with (length (encryptedCounts v))
    by (rewrite (ok_counts v Hok); lia).
  rewrite firstn_all.
  destruct (FHE_checkSignatures _ _ _); [|done]. cbn [negb]. tx_unfold.
  rewrite ?votes_at_insert, (votes_at_Some _ _ _ Hv).
  by rewrite insert_insert_eq.
Qed.

(** ** Transactions refine the transition relation *)

Lemma dispatch_effect e c w :
  wf w → wf_call c →
  match dispatch e c w with
  | inl _ => True
  | inr (_, w') => effect e w c w'
  end.
Proof.
  intros Hwf Hc. destruct c as [t o s n|i x p|i|i cs p]; cbn [dispatch wf_call] in *.
  - tx_unfold. rewrite createVote_eq by done. cbn zeta.
    destruct (_ || _) eqn:H1; [done|].
    destruct ((n <=? s) || _) eqn:H2; [done|].
    destruct (_voteCount w + 1 >? max_uint256) eqn:H3; [done|].
    b2p. apply effect_create; lia.
  - rewrite castVote_eq by (done || lia).
    destruct (_ || _) eqn:Hex; [done|].
    destruct (exists_slot w i Hwf (proj1 Hc) Hex) as (v & Hv & -> & Hok).
    cbn zeta.
    destruct (_ <? _) eqn:H1; [done|].
    destruct (block_timestamp e >? _) eqn:H2; [done|].
    destruct (voted_at _ _ _) eqn:H3; [done|].
    destruct (FHE_fromExternal _ _ _) as [choice|] eqn:H4; [|done].
    b2p. eapply effect_cast; eauto.
  - rewrite requestResultsDecryption_eq.
    destruct (_ || _) eqn:Hex; [done|].
    destruct (exists_slot w i Hwf (proj1 Hc) Hex) as (v & Hv & -> & Hok).
    cbn zeta.
    destruct (_ <=? _) eqn:H1; [done|].
    destruct (decryptionRequested _) eqn:H2; [done|].
    b2p. eapply effect_request; eauto.
  - destruct Hc as [Hi Hcs]. rewrite publishResults_eq by (done || lia).
    destruct (_ || _) eqn:Hex; [done|].
    destruct (exists_slot w i Hwf (proj1 Hi) Hex) as (v & Hv & -> & Hok).
    cbn zeta.
    destruct (decryptionRequested _) eqn:H1; [|done]. cbn [negb].
    destruct (resultsPublished _) eqn:H2; [done|].
    destruct (Z.of_nat (length cs) =? _) eqn:H3; [|done]. cbn [negb].
    destruct (FHE_checkSignatures _ _ _) eqn:H4; [|done]. cbn [negb].
    b2p. eapply effect_publish; eauto. lia.
Qed.

Lemma step_effect e c w :
  wf w → wf_call c →
  (∃ err, dispatch e c w = inl err ∧ step e c w = w) ∨
  (dispatch e c w = inr ((), step e c w) ∧ effect e w c (step e c w)).
Proof.
  intros Hwf Hc. pose proof (dispatch_effect e c w Hwf Hc) as H.
  unfold step. destruct (dispatch e c w) as [err|[[] w']]; eauto.
Qed.

(** ** The storage invariant *)

Lemma wf_init : wf init.
Proof.
  split; simpl.
  - done.
  - intros i. rewrite lookup_empty. split; [by intros []|lia].
  - intros i v. by rewrite lookup_empty.
Qed.

Lemma wf_update w i v v' h a p ev :
  wf w → _votes w !! i = Some v → vote_ok v' →
  wf (mkWorld (_voteCount w) (<[i := v']> (_votes w)) h a p ev).
Proof.
  intros [Hc Hs Hv] Hi Hok. split; cbn [_voteCount _votes].
  - done.
  - intros j. rewrite <- Hs. destruct (decide (i = j)) as [->|Hne].
    + rewrite lookup_insert_eq, Hi. split; eauto.
    + by rewrite lookup_insert_ne.
  - intros j u. destruct (decide (i = j)) as [->|Hne].
    + rewrite lookup_insert_eq. by intros [= <-].
    + rewrite lookup_insert_ne by done. apply Hv.
Qed.

Lemma wf_effect e c w w' : wf w → effect e w c w' → wf w'.
Proof.
  intros Hwf Heff. destruct Heff.
  - destruct Hwf as [Hc Hs Hv]. split; cbn [_voteCount _votes].
    + lia.
    + intros j. destruct (decide (_voteCount w + 1 = j)) as [<-|Hne].
      * rewrite lookup_insert_eq. split; [lia|eauto].
      * rewrite lookup_insert_ne by done. rewrite Hs. lia.
    + intros j u. destruct (decide (_voteCount w + 1 = j)) as [<-|Hne].
      * rewrite lookup_insert_eq. intros [= <-].
        split; cbn; [done|by rewrite length_replicate|done|done|done].
      * rewrite lookup_insert_ne by done. apply Hv.
  - eapply wf_update; [done..|].
    destruct (wf_votes w Hwf _ _ H). split; cbn; try done.
    by rewrite length_imap.
  - eapply wf_update; [done..|].
    destruct (wf_votes w Hwf _ _ H). by split; cbn.
  - eapply wf_update; [done..|].
    destruct (wf_votes w Hwf _ _ H). by split; cbn.
Qed.

Lemma wf_step e c w : wf w → wf_call c → wf (step e c w).
Proof.
  intros Hwf Hc.
  destruct (step_effect e c w Hwf Hc) as [(err & _ & ->)|[_ Heff]]; [done|].
  by eapply wf_effect.
Qed.

Lemma reachable_wf w : reachable w → wf w.
Proof. induction 1; [apply wf_init|by apply wf_step]. Qed.

Lemma later_wf w w' : wf w → later w w' → wf w'.
Proof. induction 2; [done|by apply wf_step]. Qed.

(** ** What transactions never undo *)

Lemma persists_refl v : persists v v.
Proof. by repeat split. Qed.

Lemma persists_trans v1 v2 v3 : persists v1 v2 → persists v2 v3 → persists v1 v3.
Proof.
  intros (?&?&?&?&?&Hd&Hp) (?&?&?&?&?&Hd'&Hp').
  unfold persists. split_and!; try congruence.
  - auto.
  - intros Hx. destruct (Hp Hx) as [Hx' ?], (Hp' Hx'). split; congruence.
Qed.

Lemma effect_persists e c w w' i v :
  wf w → effect e w c w' → _votes w !! i = Some v →
  ∃ v', _votes w' !! i = Some v' ∧ persists v v'.
Proof.
  intros Hwf Heff Hv. destruct Heff as [t o s n|j x p u choice Hu|j u Hu|j cs p u Hu];
    cbn [_votes].
  - exists v. split; [|apply persists_refl]. rewrite lookup_insert_ne; [done|].
    intros <-. assert (is_Some (_votes w !! (_voteCount w + 1))) as Hs by eauto.
    apply (wf_slots w Hwf) in Hs. lia.
  - destruct (decide (j = i)) as [->|Hne].
    + rewrite lookup_insert_eq. eexists; split; [done|].
      replace u with v by congruence. by repeat split.
    + rewrite lookup_insert_ne by done. eauto using persists_refl.
  - destruct (decide (j = i)) as [->|Hne].
    + rewrite lookup_insert_eq. eexists; split; [done|].
      replace u with v by congruence. by repeat split.
    + rewrite lookup_insert_ne by done. eauto using persists_refl.
  - destruct (decide (j = i)) as [->|Hne].
    + rewrite lookup_insert_eq. eexists; split; [done|].
      replace u with v in * by congruence. repeat split; try done.
      all: cbn; congruence.
    + rewrite lookup_insert_ne by done. eauto using persists_refl.
Qed.

Lemma effect_voted e c w w' i a :
  effect e w c w' → voted_at w i a = true → voted_at w' i a = true.
Proof.
  intros Heff Hv. destruct Heff; try done.
  unfold voted_at in *. cbn [_hasVoted].
  destruct (decide ((i0, msg_sender e) = (i, a))) as [->|Hne].
  - by rewrite lookup_insert_eq.
  - by rewrite lookup_insert_ne.
Qed.

Lemma effect_count e c w w' : effect e w c w' → _voteCount w ≤ _voteCount w'.
Proof. intros Heff. destruct Heff; cbn; lia. Qed.

Lemma later_persists w w' i v :
  wf w → later w w' → _votes w !! i = Some v →
  ∃ v', _votes w' !! i = Some v' ∧ persists v v'.
Proof.
  intros Hwf Hl Hv. induction Hl as [|e c w' Hc Hl (v' & Hv' & Hp)].
  - eauto using persists_refl.
  - pose proof (later_wf _ _ Hwf Hl) as Hwf'.
    destruct (step_effect e c w' Hwf' Hc) as [(err & _ & ->)|[_ Heff]]; [eauto|].
    destruct (effect_persists _ _ _ _ _ _ Hwf' Heff Hv') as (v'' & ? & ?).
    eauto using persists_trans.
Qed.

Lemma later_voted w w' i a :
  wf w → later w w' → voted_at w i a = true → voted_at w' i a = true.
Proof.
  intros Hwf Hl Hv. induction Hl as [|e c w' Hc Hl IH]; [done|].
  pose proof (later_wf _ _ Hwf Hl) as Hwf'.
  destruct (step_effect e c w' Hwf' Hc) as [(err & _ & ->)|[_ Heff]]; [done|].
  by eapply effect_voted.
Qed.

Lemma later_count w w' : wf w → later w w' → _voteCount w ≤ _voteCount w'.
Proof.
  intros Hwf Hl. induction Hl as [|e c w' Hc Hl IH]; [done|].
  pose proof (later_wf _ _ Hwf Hl) as Hwf'.
  destruct (step_effect e c w' Hwf' Hc) as [(err & _ & ->)|[_ Heff]]; [done|].
  apply effect_count in Heff. lia.
Qed.

(** * The claims *)

Lemma uint64_small x : 0 ≤ x < 2 ^ 64 → uint64 x = x.
Proof. intros. unfold uint64. by apply Z.mod_small. Qed.

Lemma decrypt_zeros n :
  decrypt <$> replicate n (FHE_asEuint32 0) = replicate n 0.
Proof.
  induction n as [|n IH]; [done|]. cbn. rewrite decrypt_asEuint32 by lia.
  f_equal. exact IH.
Qed.

(** C6.  [createVote] fails with [InvalidOptionsCount] exactly when the
    number of options is outside [2,4]; otherwise it fails with
    [InvalidTimeRange] exactly when [endTime <= startTime] or
    [endTime <= block.timestamp]; otherwise it returns the next sequential
    id (the first poll gets id 1) and stores the poll with both flags
    false, no published results and one accumulator per option, each an
    encryption of zero.  The counter has room for the new id in every
    world a chain can reach; at [2^256 - 1] the checked increment would
    panic. *)
Theorem createVote_validation_and_allocation e t o s n w :
  reachable w → wf_env e →
  let len := Z.of_nat (length o) in
  let id := _voteCount w + 1 in
  (outcome (createVote e t o s n w) = Some (InvalidOptionsCount len)
     ↔ ¬ 2 ≤ len ≤ 4) ∧
  (2 ≤ len ≤ 4 →
     (outcome (createVote e t o s n w) = Some (InvalidTimeRange s n)
        ↔ n ≤ s ∨ n ≤ block_timestamp e)) ∧
  (2 ≤ len ≤ 4 → s < n → block_timestamp e < n → id ≤ max_uint256 →
     ∃ w', createVote e t o s n w = inr (id, w') ∧
       _voteCount w' = id ∧
       votes_at w' id =
         mkVote t o s n (msg_sender e) false false
           (replicate (length o) (FHE_asEuint32 0)) [] ∧
       tally w' id = replicate (length o) 0) ∧
  (∀ id' w', createVote e t o s n w = inr (id', w') →
     id' = id ∧ 2 ≤ len ≤ 4 ∧ s < n ∧ block_timestamp e < n) ∧
  _voteCount init + 1 = 1.
Proof.
  intros Hr [_ Hnow] len id. apply reachable_wf in Hr.
  rewrite createVote_eq by done. cbn zeta. fold len id.
  rewrite (uint64_small _ Hnow).
  destruct ((len <? 2) || (len >? 4)) eqn:H1;
    [|destruct ((n <=? s) || (n <=? block_timestamp e)) eqn:H2;
      [|destruct (id >? max_uint256) eqn:H3]]; b2p; cbn [outcome].
  all: split_and!; try done; try lia;
    try (split; [try done; intros [=]|]; (done || lia));
    try (intros ? ? [=]; simplify_eq; lia).
  intros _ _ _ _. eexists. split; [done|]. split; [done|].
  unfold tally. rewrite votes_at_insert. split; [done|].
  apply decrypt_zeros.
Qed.

Lemma succeeds_effect e c w :
  wf w → wf_call c → succeeds (dispatch e c w) →
  dispatch e c w = inr ((), step e c w) ∧ effect e w c (step e c w).
Proof.
  intros Hwf Hc Hs.
  destruct (step_effect e c w Hwf Hc) as [(err & Herr & _)|H]; [|done].
  unfold succeeds in Hs. by rewrite Herr in Hs.
Qed.

Lemma fails_step e c w err :
  outcome (dispatch e c w) = Some err → step e c w = w.
Proof. unfold step. by destruct (dispatch e c w) as [|[[] ?]]. Qed.

Lemma exists_test w i :
  0 ≤ i → (i =? 0) || (i >? _voteCount w) = false ↔ 1 ≤ i ≤ _voteCount w.
Proof.
  intros Hi. rewrite orb_false_iff, Z.eqb_neq, Z.gtb_ltb, Z.ltb_ge. lia.
Qed.

Lemma succeeds_createVote e t o s n w :
  succeeds (createVote e t o s n w) →
  succeeds (dispatch e (CreateVote t o s n) w).
Proof.
  unfold succeeds. cbn [dispatch]. tx_unfold.
  by destruct (createVote e t o s n w) as [|[? ?]].
Qed.

(** C8, as amended.  After a successful [createVote] the stored poll has
    between two and four options and [0 <= startTime < endTime]; the start
    time is what the caller passed and may be zero. *)
Theorem createVote_postcondition e t o s n w :
  reachable w → wf_call (CreateVote t o s n) →
  succeeds (createVote e t o s n w) →
  let v := votes_at (step e (CreateVote t o s n) w) (_voteCount w + 1) in
  options v = o ∧ startTime v = s ∧ endTime v = n ∧
  (2 ≤ length (options v) ≤ 4)%nat ∧
  0 ≤ startTime v < endTime v.
Proof.
  intros Hr Hc Hs. apply reachable_wf in Hr.
  destruct (succeeds_effect e _ w Hr Hc (succeeds_createVote _ _ _ _ _ _ Hs))
    as [_ Heff].
  set (w1 := step e (CreateVote t o s n) w) in *. clearbody w1.
  inversion Heff; subst. cbn zeta.
  rewrite votes_at_update, decide_True by done. cbn.
  destruct Hc. split_and!; try done; lia.
Qed.

(** C5, as amended.  [castVote] checks, in this order, that the poll
    exists ([VoteNotFound]), that [block.timestamp >= startTime]
    ([VotingNotStarted]), that [block.timestamp <= endTime]
    ([VotingEnded]) and that the sender has no marker for the poll
    ([AlreadyVoted]); a ballot with a valid input proof from a sender
    without a marker is accepted exactly when [block.timestamp] lies in
    the closed interval from [startTime] to [endTime], both ends
    included. *)
Theorem castVote_precondition_order e i x p w :
  reachable w → wf_call (CastVote i x p) →
  let r := outcome (castVote e i x p w) in
  let v := votes_at w i in
  let now := block_timestamp e in
  (¬ 1 ≤ i ≤ _voteCount w → r = Some (VoteNotFound i)) ∧
  (1 ≤ i ≤ _voteCount w → now < startTime v →
     r = Some (VotingNotStarted i)) ∧
  (1 ≤ i ≤ _voteCount w → startTime v ≤ now → endTime v < now →
     r = Some (VotingEnded i)) ∧
  (1 ≤ i ≤ _voteCount w → startTime v ≤ now ≤ endTime v →
     voted_at w i (msg_sender e) = true →
     r = Some (AlreadyVoted i (msg_sender e))) ∧
  (1 ≤ i ≤ _voteCount w → voted_at w i (msg_sender e) = false →
     is_Some (FHE_fromExternal (msg_sender e) x p) →
     (r = None ↔ startTime v ≤ now ≤ endTime v) ∧
     (now = startTime v → r = None) ∧ (now = endTime v → r = None)).
Proof.
  intros Hr [Hi _] r v now. apply reachable_wf in Hr. subst r.
  rewrite castVote_eq by done. cbn zeta. fold v now.
  destruct ((i =? 0) || (i >? _voteCount w)) eqn:Hex.
  { assert (¬ 1 ≤ i ≤ _voteCount w) by (rewrite <- exists_test; congruence).
    by split_and!. }
  pose proof (proj1 (exists_test w i Hi) Hex) as Hex'.
  destruct (exists_slot w i Hr Hi Hex) as (u & Hu & Hv & Hok).
  pose proof (ok_times u Hok) as Ht. rewrite <- Hv in Ht. fold v in Ht.
  destruct (now <? startTime v) eqn:H1;
    [|destruct (now >? endTime v) eqn:H2;
      [|destruct (voted_at w i (msg_sender e)) eqn:H3;
        [|destruct (FHE_fromExternal _ _ _) eqn:H4]]];
    b2p; cbn [outcome]; split_and!; intros; try done; try lia;
    try match goal with H : is_Some None |- _ => by destruct H as [? [=]] end;
    (split_and!; [split|..]; intros; (done || lia)).
Qed.

(** C4, as amended.  Once a sender has cast a ballot for a poll, every
    later [castVote] of that sender for that poll reverts, whatever the
    encrypted input: with [AlreadyVoted] as long as the window is open and
    with [VotingEnded] after [endTime], which is checked first.  The
    reverted call leaves the world, and so every accumulator, as it was. *)
Theorem castVote_once e i x p w e' x' p' w' :
  reachable w → wf_call (CastVote i x p) →
  succeeds (castVote e i x p w) →
  later (step e (CastVote i x p) w) w' →
  msg_sender e' = msg_sender e →
  block_timestamp e ≤ block_timestamp e' →
  let r := outcome (castVote e' i x' p' w') in
  (block_timestamp e' ≤ endTime (votes_at w i) →
     r = Some (AlreadyVoted i (msg_sender e))) ∧
  (endTime (votes_at w i) < block_timestamp e' →
     r = Some (VotingEnded i)) ∧
  step e' (CastVote i x' p') w' = w' ∧
  tally (step e' (CastVote i x' p') w') i = tally w' i.
Proof.
  intros Hr Hc Hs Hl Hsender Hnow r. apply reachable_wf in Hr.
  destruct (succeeds_effect e _ w Hr Hc Hs) as [_ Heff].
  pose proof (wf_step e _ w Hr Hc) as Hwf1.
  pose proof (later_wf _ _ Hwf1 Hl) as Hwf'.
  set (w1 := step e (CastVote i x p) w) in *.
  inversion Heff as [|j y q v choice Hv Ht Hnv Hch Hj Hw1| |]; subst j y q.
  assert (Hv1 : ∃ v1, _votes w1 !! i = Some v1 ∧ endTime v1 = endTime v
                      ∧ startTime v1 = startTime v).
  { rewrite <- Hw1. cbn [_votes]. rewrite lookup_insert_eq. eauto. }
  destruct Hv1 as (v1 & Hv1 & He1 & Hs1).
  assert (Hvoted1 : voted_at w1 i (msg_sender e) = true).
  { rewrite <- Hw1. unfold voted_at. cbn [_hasVoted]. by rewrite lookup_insert_eq. }
  destruct (later_persists _ _ _ _ Hwf1 Hl Hv1) as (v' & Hv' & Hp).
  destruct Hp as (_ & _ & Hs' & He' & _).
  pose proof (later_voted _ _ _ _ Hwf1 Hl Hvoted1) as Hvoted'.
  assert (Hex' : 1 ≤ i ≤ _voteCount w') by (apply (wf_slots w' Hwf'); eauto).
  assert (Hr' : r = Some (AlreadyVoted i (msg_sender e)) ∧
                  block_timestamp e' ≤ endTime (votes_at w i)
                ∨ r = Some (VotingEnded i) ∧
                  endTime (votes_at w i) < block_timestamp e').
  { subst r. rewrite castVote_eq by (done || apply Hc). cbn zeta.
    rewrite (proj2 (exists_test w' i (proj1 Hc)) Hex').
    rewrite (votes_at_Some _ _ _ Hv'), (votes_at_Some _ _ _ Hv).
    rewrite Hs', He', Hs1, He1, Hsender, Hvoted'.
    destruct (block_timestamp e' <? startTime v) eqn:H1; [b2p; lia|].
    destruct (block_timestamp e' >? endTime v) eqn:H2; b2p; cbn; [right|left];
      (split; [done|lia]). }
  assert (Hsame : step e' (CastVote i x' p') w' = w').
  { destruct Hr' as [[Hr' _]|[Hr' _]]; by eapply fails_step. }
  split_and!.
  - destruct Hr' as [[? ?]|[? ?]]; [done|lia].
  - destruct Hr' as [[? ?]|[? ?]]; [lia|done].
  - done.
  - by rewrite Hsame.
Qed.

Lemma elem_of_rev {A} (x : A) l : x ∈ rev l ↔ x ∈ l.
Proof. rewrite !list_elem_of_In. symmetry. apply in_rev. Qed.

Lemma effect_public e c w w' x :
  effect e w c w' → x ∈ acl_public w → x ∈ acl_public w'.
Proof.
  intros Heff Hx. destruct Heff; cbn [acl_public]; try done.
  apply elem_of_app. by right.
Qed.

Lemma later_public w w' x :
  wf w → later w w' → x ∈ acl_public w → x ∈ acl_public w'.
Proof.
  intros Hwf Hl Hx. induction Hl as [|e c w' Hc Hl IH]; [done|].
  pose proof (later_wf _ _ Hwf Hl) as Hwf'.
  destruct (step_effect e c w' Hwf' Hc) as [(err & _ & ->)|[_ Heff]]; [done|].
  by eapply effect_public.
Qed.

(** C7.  For an existing poll [requestResultsDecryption] reverts with
    [VotingStillActive] while [block.timestamp <= endTime], succeeds from
    [endTime + 1] on when the flag is not set, and reverts with
    [DecryptionAlreadyRequested] on every call after a successful one.  A
    successful call sets [decryptionRequested] and puts every accumulator
    of the poll, unchanged, on the public-decryption list, where it
    stays. *)
Theorem requestResultsDecryption_boundary e i w :
  reachable w → wf_call (RequestResultsDecryption i) →
  1 ≤ i ≤ _voteCount w →
  let v := votes_at w i in
  let r := outcome (requestResultsDecryption e i w) in
  let w1 := step e (RequestResultsDecryption i) w in
  (block_timestamp e ≤ endTime v → r = Some (VotingStillActive i)) ∧
  (block_timestamp e = endTime v + 1 → decryptionRequested v = false →
     r = None) ∧
  (endTime v < block_timestamp e → decryptionRequested v = true →
     r = Some (DecryptionAlreadyRequested i)) ∧
  (endTime v < block_timestamp e → decryptionRequested v = false →
     r = None ∧
     decryptionRequested (votes_at w1 i) = true ∧
     encryptedCounts (votes_at w1 i) = encryptedCounts v ∧
     ∀ e' w', later w1 w' →
       (∀ x, x ∈ encryptedCounts v → x ∈ acl_public w') ∧
       (block_timestamp e ≤ block_timestamp e' →
        outcome (requestResultsDecryption e' i w')
          = Some (DecryptionAlreadyRequested i))).
Proof.
  intros Hr Hc Hex v r w1. apply reachable_wf in Hr.
  pose proof (wf_step e _ w Hr Hc) as Hwf1. fold w1 in Hwf1.
  assert (Hr_eq : r =
    if block_timestamp e <=? endTime v then Some (VotingStillActive i)
    else if decryptionRequested v then Some (DecryptionAlreadyRequested i)
    else None).
  { subst r. rewrite requestResultsDecryption_eq.
    rewrite (proj2 (exists_test w i (proj1 Hc)) Hex). cbn zeta. fold v.
    destruct (_ <=? _); [done|]. by destruct (decryptionRequested v). }
  split_and!.
  - intros Hle. rewrite Hr_eq. by rewrite (proj2 (Z.leb_le _ _) Hle).
  - intros Hnow Hd. rewrite Hr_eq, Hd.
    by rewrite (proj2 (Z.leb_gt _ _)) by lia.
  - intros Hgt Hd. rewrite Hr_eq, Hd.
    by rewrite (proj2 (Z.leb_gt _ _)) by lia.
  - intros Hgt Hd.
    assert (Hnone : r = None).
    { rewrite Hr_eq, Hd. by rewrite (proj2 (Z.leb_gt _ _)) by lia. }
    destruct (succeeds_effect e _ w Hr Hc Hnone) as [_ Heff]. fold w1 in Heff.
    clearbody w1.
    inversion Heff as [| |j u Hu Ht Hdu Hj Hw1|]; subst j w1.
    assert (Huv : u = v) by (symmetry; by apply votes_at_Some). subst u.
    rewrite votes_at_update, decide_True by done.
    split_and!; [done..|].
    intros e' w' Hl.
    match type of Hl with later ?w1 _ =>
      assert (Hs1 : _votes w1 !! i = Some (set_decryptionRequested true v))
        by (cbn [_votes]; apply lookup_insert_eq)
    end.
    destruct (later_persists _ _ _ _ Hwf1 Hl Hs1)
      as (v' & Hv' & _ & _ & _ & He' & _ & Hd' & _).
    pose proof (later_wf _ _ Hwf1 Hl) as Hwf'. split.
    + intros x Hx. apply (later_public _ _ _ Hwf1 Hl).
      cbn [acl_public]. apply elem_of_app. left.
      by apply elem_of_rev.
    + intros Hnow. rewrite requestResultsDecryption_eq.
      assert (Hex' : 1 ≤ i ≤ _voteCount w') by (apply (wf_slots w' Hwf'); eauto).
      rewrite (proj2 (exists_test w' i (proj1 Hc)) Hex'). cbn zeta.
      rewrite (votes_at_Some _ _ _ Hv'), He', (Hd' eq_refl). cbn.
      by rewrite (proj2 (Z.leb_gt _ _)) by lia.
Qed.

(** X22.  For an existing poll [publishResults] reverts with
    [ResultsNotReady] when decryption was not requested, with
    [ResultsAlreadyPublished] when results are published, then with
    [InvalidResultsLength] when the number of clear counts is not the
    number of options, then, leaving the world as it was, with the
    library's error when [FHE.checkSignatures] rejects the stored
    accumulators, [abi.encode(clearCounts)] and the proof.  When the
    library accepts these, the call stores the clear counts, sets
    [resultsPublished], and every later call reverts with
    [ResultsAlreadyPublished] and leaves the stored results alone. *)
Theorem publishResults_contract e i cs p w :
  reachable w → wf_call (PublishResults i cs p) →
  1 ≤ i ≤ _voteCount w →
  let v := votes_at w i in
  let r := outcome (publishResults e i cs p w) in
  let w1 := step e (PublishResults i cs p) w in
  (decryptionRequested v = false → r = Some (ResultsNotReady i)) ∧
  (resultsPublished v = true → r = Some (ResultsAlreadyPublished i)) ∧
  (decryptionRequested v = true → resultsPublished v = false →
     length cs ≠ length (options v) →
     r = Some (InvalidResultsLength (Z.of_nat (length (options v)))
                                    (Z.of_nat (length cs)))) ∧
  (decryptionRequested v = true → resultsPublished v = false →
     length cs = length (options v) →
     FHE_checkSignatures (encryptedCounts v) (abi_encode cs) p = false →
     r = Some DecryptionProofInvalid ∧ w1 = w) ∧
  (decryptionRequested v = true → resultsPublished v = false →
     length cs = length (options v) →
     FHE_checkSignatures (encryptedCounts v) (abi_encode cs) p = true →
     r = None ∧
     publicResults (votes_at w1 i) = cs ∧
     resultsPublished (votes_at w1 i) = true ∧
     ∀ e' cs' p' w', later w1 w' →
       outcome (publishResults e' i cs' p' w')
         = Some (ResultsAlreadyPublished i) ∧
       publicResults (votes_at w' i) = cs).
Proof.
  intros Hr Hc Hex v r w1. apply reachable_wf in Hr.
  pose proof (wf_step e _ w Hr Hc) as Hwf1. fold w1 in Hwf1.
  destruct Hc as [Hi Hcs].
  pose proof (proj2 (exists_test w i (proj1 Hi)) Hex) as Hex_b.
  destruct (exists_slot w i Hr (proj1 Hi) Hex_b) as (u & Hu & Hv & Hok).
  fold v in Hv. subst u.
  assert (Hr_eq : r =
    if negb (decryptionRequested v) then Some (ResultsNotReady i)
    else if resultsPublished v then Some (ResultsAlreadyPublished i)
    else if negb (Z.of_nat (length cs) =? Z.of_nat (length (options v)))
    then Some (InvalidResultsLength (Z.of_nat (length (options v)))
                                    (Z.of_nat (length cs)))
    else if negb (FHE_checkSignatures (encryptedCounts v) (abi_encode cs) p)
    then Some DecryptionProofInvalid else None).
  { subst r. rewrite publishResults_eq by (done || lia).
    rewrite Hex_b. cbn zeta. fold v.
    by repeat (match goal with |- context [if ?b then _ else _] =>
                 destruct b end; try done). }
  split_and!.
  - intros Hd. by rewrite Hr_eq, Hd.
  - intros Hp. by rewrite Hr_eq, Hp, (ok_flags v Hok Hp).
  - intros Hd Hp Hlen. rewrite Hr_eq, Hd, Hp. cbn.
    by rewrite (proj2 (Z.eqb_neq _ _)) by lia.
  - intros Hd Hp Hlen Hsig.
    assert (Hfail : r = Some DecryptionProofInvalid).
    { rewrite Hr_eq, Hd, Hp, Hsig. cbn.
      by rewrite (proj2 (Z.eqb_eq _ _)) by lia. }
    split; [done|]. by eapply (fails_step e (PublishResults i cs p)).
  - intros Hd Hp Hlen Hsig.
    assert (Hnone : r = None).
    { rewrite Hr_eq, Hd, Hp, Hsig. cbn.
      by rewrite (proj2 (Z.eqb_eq _ _)) by lia. }
    destruct (succeeds_effect e (PublishResults i cs p) w Hr (conj Hi Hcs) Hnone)
      as [_ Heff]. fold w1 in Heff.
    clearbody w1.
    inversion Heff as [| | |j cs0 p0 u Hu' _ _ _ _ Hj Hw1]; subst j cs0 p0 w1.
    assert (Huv : u = v) by congruence. subst u.
    rewrite votes_at_update, decide_True by done.
    split_and!; [done..|].
    intros e' cs' p' w' Hl.
    match type of Hl with later ?w1 _ =>
      assert (Hs1 : _votes w1 !! i
                = Some (set_resultsPublished true (set_publicResults cs v)))
        by (cbn [_votes]; apply lookup_insert_eq)
    end.
    destruct (later_persists _ _ _ _ Hwf1 Hl Hs1)
      as (v' & Hv' & _ & _ & _ & _ & _ & _ & Hp').
    destruct (Hp' eq_refl) as [Hp1 Hp2].
    pose proof (later_wf _ _ Hwf1 Hl) as Hwf'.
    assert (Hex' : 1 ≤ i ≤ _voteCount w') by (apply (wf_slots w' Hwf'); eauto).
    rewrite (votes_at_Some _ _ _ Hv'). split; [|done].
    rewrite publishResults_eq by (done || lia).
    rewrite (proj2 (exists_test w' i (proj1 Hi)) Hex'). cbn zeta.
    rewrite (votes_at_Some _ _ _ Hv'), Hp1.
    by rewrite (ok_flags v' (wf_votes w' Hwf' _ _ Hv') Hp1).
Qed.

Lemma votes_at_ok w i :
  wf w → votes_at w i = emptyVote ∨ vote_ok (votes_at w i).
Proof.
  intros Hwf. unfold votes_at. destruct (_votes w !! i) as [v|] eqn:Hv.
  - right. by eapply wf_votes.
  - by left.
Qed.

Lemma unset_slot w i : wf w → ¬ 1 ≤ i ≤ _voteCount w → _votes w !! i = None.
Proof.
  intros Hwf Hi. apply eq_None_not_Some. by rewrite (wf_slots w Hwf).
Qed.

(** C3.  Whatever the transaction, [decryptionRequested] of a poll goes
    from false to true only through [requestResultsDecryption] of that poll
    executed at [block.timestamp > endTime]; [resultsPublished] goes from
    false to true only when [decryptionRequested] is already true; a flag
    that is true stays true, after one transaction and after any number;
    and in every reachable world a published poll has decryption
    requested. *)
Theorem lifecycle_flags e c w i :
  reachable w → wf_call c →
  let v := votes_at w i in
  let v' := votes_at (step e c w) i in
  (decryptionRequested v = false → decryptionRequested v' = true →
     c = RequestResultsDecryption i ∧ endTime v < block_timestamp e) ∧
  (resultsPublished v = false → resultsPublished v' = true →
     decryptionRequested v = true) ∧
  (decryptionRequested v = true → decryptionRequested v' = true) ∧
  (resultsPublished v = true → resultsPublished v' = true) ∧
  (resultsPublished v = true → decryptionRequested v = true) ∧
  (∀ w', later w w' →
     (decryptionRequested v = true →
        decryptionRequested (votes_at w' i) = true) ∧
     (resultsPublished v = true →
        resultsPublished (votes_at w' i) = true)).
Proof.
  intros Hr Hc v v'. apply reachable_wf in Hr.
  assert (Hinv : resultsPublished v = true → decryptionRequested v = true).
  { destruct (votes_at_ok w i Hr) as [Hv|Hv]; fold v in Hv.
    - by rewrite Hv.
    - apply (ok_flags v Hv). }
  assert (Hlater : ∀ w', later w w' →
     (decryptionRequested v = true →
        decryptionRequested (votes_at w' i) = true) ∧
     (resultsPublished v = true →
        resultsPublished (votes_at w' i) = true)).
  { intros w' Hl. subst v. unfold votes_at at 1 3.
    destruct (_votes w !! i) as [u|] eqn:Hu; [|done]. cbn.
    destruct (later_persists _ _ _ _ Hr Hl Hu)
      as (u' & Hu' & _ & _ & _ & _ & _ & Hd & Hp).
    rewrite (votes_at_Some _ _ _ Hu'). split; [done|]. intros Hx.
    by destruct (Hp Hx). }
  split_and!; [..|done|done]; subst v';
    (destruct (step_effect e c w Hr Hc) as [(err & _ & ->)|[_ Heff]];
      [fold v; congruence|]);
    destruct Heff as [t o s n|j x p u choice Hu|j u Hu Hend|j cs p u Hu Hd];
    rewrite votes_at_update; case_decide as Hij; subst; fold v;
    try done; try congruence;
    try (assert (Hvu : v = u) by (subst v; by apply votes_at_Some));
    try (assert (Hvu : v = emptyVote)
           by (subst v; apply votes_at_None, unset_slot; [done|lia]));
    rewrite Hvu in *; cbn; intros; split_and?; (done || congruence || lia).
Qed.

(** C9.  In every reachable world every poll has as many encrypted
    accumulators as options and, once results are published, as many
    published results as options; every transaction preserves this. *)
Theorem length_consistency e c w i :
  reachable w → wf_call c →
  let consistent := λ v : Vote,
    length (encryptedCounts v) = length (options v) ∧
    (resultsPublished v = true →
       length (publicResults v) = length (options v)) in
  consistent (votes_at w i) ∧ consistent (votes_at (step e c w) i).
Proof.
  intros Hr Hc consistent.
  assert (Hall : ∀ w0, wf w0 → consistent (votes_at w0 i)).
  { intros w0 Hwf. destruct (votes_at_ok w0 i Hwf) as [->|Hok]; [done|].
    split; [apply (ok_counts _ Hok)|apply (ok_results _ Hok)]. }
  apply reachable_wf in Hr. split; [by apply Hall|].
  by apply Hall, wf_step.
Qed.

(** C10.  A successful [castVote] sets the sender's marker for the poll,
    which was not set, and replaces the accumulators of that poll by their
    bumped values.  The other markers, the other polls, the poll's title,
    options, times, creator, flags and published results and the poll
    count are as before.  Outside the contract's storage the library
    records the new accumulators as usable by the contract, the list of
    publicly decryptable handles is as before, and one [VoteCast] event is
    logged. *)
Theorem castVote_frame e i x p w :
  reachable w → wf_call (CastVote i x p) →
  succeeds (castVote e i x p w) →
  let w' := step e (CastVote i x p) w in
  let v := votes_at w i in
  let v' := votes_at w' i in
  voted_at w i (msg_sender e) = false ∧
  voted_at w' i (msg_sender e) = true ∧
  (∀ j a, (j, a) ≠ (i, msg_sender e) → voted_at w' j a = voted_at w j a) ∧
  (∀ j, j ≠ i → votes_at w' j = votes_at w j) ∧
  title v' = title v ∧ options v' = options v ∧
  startTime v' = startTime v ∧ endTime v' = endTime v ∧
  creator v' = creator v ∧
  decryptionRequested v' = decryptionRequested v ∧
  resultsPublished v' = resultsPublished v ∧
  publicResults v' = publicResults v ∧
  _voteCount w' = _voteCount w ∧
  acl_public w' = acl_public w ∧
  events w' = events w ++ [VoteCast i (msg_sender e)] ∧
  ∃ choice, FHE_fromExternal (msg_sender e) x p = Some choice ∧
    encryptedCounts v' = imap (bump choice) (encryptedCounts v) ∧
    acl_allowed w' = rev (encryptedCounts v') ++ acl_allowed w.
Proof.
  intros Hr Hc Hs w' v v'. apply reachable_wf in Hr.
  destruct (succeeds_effect e _ w Hr Hc Hs) as [_ Heff].
  fold w' in Heff. subst v'. clearbody w'.
  inversion Heff as [|j y q u choice Hu Ht Hnv Hch Hj Hw'| |]; subst j y q w'.
  assert (Huv : votes_at w i = u) by (by apply votes_at_Some).
  fold v in Huv. subst u.
  rewrite votes_at_update, decide_True by done.
  cbn [_voteCount acl_public acl_allowed events title options startTime
       endTime creator decryptionRequested resultsPublished publicResults
       encryptedCounts set_encryptedCounts].
  split_and!; try done.
  - unfold voted_at. cbn [_hasVoted]. by rewrite lookup_insert_eq.
  - intros j a Hne. unfold voted_at. cbn [_hasVoted].
    by rewrite lookup_insert_ne.
  - intros j Hne. rewrite votes_at_update. by rewrite decide_False.
  - by exists choice.
Qed.

(** ** The tally *)

Lemma decrypt_bump choice k c :
  Z.of_nat k < 2 ^ 32 →
  decrypt (bump choice k c) =
    (decrypt c + if bool_decide (decrypt choice = Z.of_nat k) then 1 else 0)
      mod 2 ^ 32.
Proof.
  intros Hk. unfold bump, uint32.
  rewrite decrypt_add, decrypt_select, decrypt_eq.
  rewrite (Z.mod_small (Z.of_nat k)) by lia.
  rewrite (decrypt_asEuint32 (Z.of_nat k)) by lia.
  by case_bool_decide; rewrite decrypt_asEuint32 by lia.
Qed.

Lemma votes_for_nil k : votes_for k [] = 0.
Proof. reflexivity. Qed.

Lemma votes_for_app k l1 l2 :
  votes_for k (l1 ++ l2) = votes_for k l1 + votes_for k l2.
Proof. unfold votes_for. rewrite filter_app, length_app. lia. Qed.

Lemma votes_for_singleton k d :
  votes_for k [d] = if bool_decide (d = Z.of_nat k) then 1 else 0.
Proof.
  unfold votes_for. rewrite filter_cons, filter_nil.
  destruct (decide (d = Z.of_nat k)) as [Hd|Hd].
  - by rewrite bool_decide_eq_true_2.
  - by rewrite bool_decide_eq_false_2.
Qed.

Lemma votes_for_nonneg k l : 0 ≤ votes_for k l.
Proof. unfold votes_for. lia. Qed.

Lemma tally_lookup w i k :
  tally w i !! k = decrypt <$> encryptedCounts (votes_at w i) !! k.
Proof. unfold tally. by rewrite list_lookup_fmap. Qed.

Lemma tally_range w i k t : tally w i !! k = Some t → 0 ≤ t < 2 ^ 32.
Proof.
  rewrite tally_lookup. destruct (_ !! k) as [c|]; [|done].
  intros [= <-]. apply decrypt_range.
Qed.

Lemma ballot_reverted i e c w err :
  dispatch e c w = inl err → ballot i e c w = [].
Proof.
  destruct c as [| j x p | |]; try done. cbn [dispatch ballot].
  intros ->. by case_bool_decide.
Qed.

Lemma tally_step e c w i k t :
  wf w → wf_call c → 1 ≤ i ≤ _voteCount w →
  tally w i !! k = Some t →
  tally (step e c w) i !! k =
    Some ((t + votes_for k (ballot i e c w)) mod 2 ^ 32).
Proof.
  intros Hwf Hc Hex Ht. pose proof (tally_range _ _ _ _ Ht) as Hrange.
  destruct (step_effect e c w Hwf Hc) as [(err & Herr & ->)|[Hd Heff]].
  { rewrite (ballot_reverted _ _ _ _ _ Herr), votes_for_nil, Z.add_0_r.
    by rewrite Z.mod_small. }
  revert Hd. rewrite tally_lookup in *.
  destruct Heff as [t0 o s n|j x p u choice Hu _ _ Hch|j u Hu|j cs p u Hu];
    intros Hd; rewrite votes_at_update; cbn [ballot];
    try (rewrite votes_for_nil, Z.add_0_r, Z.mod_small by done).
  - rewrite decide_False by lia. done.
  - cbn [dispatch] in Hd. case_bool_decide as Hij.
    + subst j. rewrite decide_True by done. rewrite Hd, Hch.
      rewrite (votes_at_Some _ _ _ Hu) in Ht.
      cbn [encryptedCounts set_encryptedCounts].
      rewrite list_lookup_imap.
      destruct (encryptedCounts u !! k) as [a|] eqn:Ha; [|done].
      injection Ht as <-. cbn.
      pose proof (lookup_lt_Some _ _ _ Ha) as Hk.
      pose proof (wf_votes w Hwf _ _ Hu) as Hok.
      rewrite (ok_counts u Hok) in Hk. pose proof (ok_options u Hok).
      rewrite decrypt_bump by lia. by rewrite votes_for_singleton.
    + rewrite decide_False by done.
      by rewrite votes_for_nil, Z.add_0_r, Z.mod_small.
  - case_decide; [|done]. subst j.
    by rewrite (votes_at_Some _ _ _ Hu) in Ht.
  - case_decide; [|done]. subst j.
    by rewrite (votes_at_Some _ _ _ Hu) in Ht.
Qed.

Lemma tally_run i k tr : ∀ w t,
  wf w → Forall (λ ec, wf_call ec.2) tr → 1 ≤ i ≤ _voteCount w →
  tally w i !! k = Some t →
  tally (run tr w) i !! k = Some ((t + votes_for k (ballots i tr w)) mod 2 ^ 32).
Proof.
  induction tr as [|[e c] tr IH]; intros w t Hwf Htr Hex Ht.
  - cbn. rewrite Z.add_0_r, Z.mod_small; [done|]. by eapply tally_range.
  - apply Forall_cons in Htr as [Hc Htr]. cbn [run ballots].
    cbn [snd] in Hc.
    pose proof (tally_step e c w i k t Hwf Hc Hex Ht) as Hstep.
    assert (Hex' : 1 ≤ i ≤ _voteCount (step e c w)).
    { pose proof (later_count w (step e c w) Hwf
                    (later_step w e c w Hc (later_refl w))). lia. }
    rewrite (IH _ _ (wf_step e c w Hwf Hc) Htr Hex' Hstep).
    rewrite votes_for_app, Zplus_mod_idemp_l. f_equal. f_equal. lia.
Qed.

(** C1, as amended.  An accepted ballot replaces every accumulator [A_k]
    of the poll by [A_k + select(choice == k, 1, 0)], and so, from the
    zeroed accumulators of a new poll on and whatever other transactions
    come in between, accumulator [k] decrypts to the number of accepted
    ballots whose choice is [k], reduced modulo 2^32 as the accumulators
    are 32-bit: to exactly that number as long as it is below 2^32. *)
Theorem tally_counts_ballots e t o s n w tr k :
  reachable w → wf_call (CreateVote t o s n) →
  succeeds (createVote e t o s n w) →
  Forall (λ ec, wf_call ec.2) tr →
  (k < length o)%nat →
  let i := _voteCount w + 1 in
  let w1 := step e (CreateVote t o s n) w in
  let count := votes_for k (ballots i tr w1) in
  tally w1 i !! k = Some 0 ∧
  tally (run tr w1) i !! k = Some (count mod 2 ^ 32) ∧
  (count < 2 ^ 32 → tally (run tr w1) i !! k = Some count) ∧
  (∀ e' x p w', reachable w' → wf_call (CastVote i x p) →
     succeeds (castVote e' i x p w') →
     ∃ choice, FHE_fromExternal (msg_sender e') x p = Some choice ∧
       encryptedCounts (votes_at (step e' (CastVote i x p) w') i) =
         imap (bump choice) (encryptedCounts (votes_at w' i)) ∧
       ∀ j c, encryptedCounts (votes_at w' i) !! j = Some c →
         decrypt (bump choice j c) =
           (decrypt c +
            if bool_decide (decrypt choice = Z.of_nat j) then 1 else 0)
             mod 2 ^ 32).
Proof.
  intros Hr Hc Hs Htr Hk i w1 count. apply reachable_wf in Hr.
  destruct (succeeds_effect e _ w Hr Hc (succeeds_createVote _ _ _ _ _ _ Hs))
    as [_ Heff].
  pose proof (wf_step e _ w Hr Hc) as Hwf1. fold w1 in Heff, Hwf1.
  assert (H0 : tally w1 i !! k = Some 0).
  { clearbody w1. inversion Heff; subst. rewrite tally_lookup, votes_at_update.
    rewrite decide_True by done. cbn [encryptedCounts].
    rewrite lookup_replicate_2 by done. cbn.
    by rewrite decrypt_asEuint32 by lia. }
  assert (Hex : 1 ≤ i ≤ _voteCount w1).
  { clearbody w1. inversion Heff; subst. cbn. pose proof (wf_count w Hr). lia. }
  pose proof (tally_run i k tr w1 0 Hwf1 Htr Hex H0) as Hrun.
  rewrite Z.add_0_l in Hrun. fold count in Hrun.
  split_and!; [done|done| |].
  - intros Hlt. rewrite Hrun, Z.mod_small; [done|].
    split; [apply votes_for_nonneg|done].
  - intros e' x p w' Hr' Hc' Hs'. apply reachable_wf in Hr'.
    destruct (succeeds_effect e' _ w' Hr' Hc' Hs') as [_ Heff'].
    set (w2 := step e' (CastVote i x p) w') in *. clearbody w2.
    inversion Heff' as [|j y q u choice Hu _ _ Hch| |]; subst.
    exists choice. rewrite votes_at_update, decide_True by done.
    rewrite (votes_at_Some _ _ _ Hu). split_and!; [done..|].
    intros j c Hj. apply decrypt_bump.
    pose proof (lookup_lt_Some _ _ _ Hj) as Hlt.
    pose proof (wf_votes w' Hr' _ _ Hu) as Hok.
    rewrite (ok_counts u Hok) in Hlt. pose proof (ok_options u Hok). lia.
Qed.

Lemma reachable_run tr : ∀ w,
  reachable w → Forall (λ ec, wf_call ec.2) tr → reachable (run tr w).
Proof.
  induction tr as [|[e c] tr IH]; intros w Hr Htr; [done|].
  apply Forall_cons in Htr as [Hc Htr]. cbn [run]. apply IH; [|done].
  by constructor.
Qed.

Lemma votes_for_replicate k n :
  votes_for k (replicate n (Z.of_nat k)) = Z.of_nat n.
Proof.
  induction n as [|n IH]; [done|].
  change (replicate (S n) (Z.of_nat k)) with ([Z.of_nat k] ++ replicate n (Z.of_nat k)).
  rewrite votes_for_app, IH, votes_for_singleton.
  rewrite bool_decide_eq_true_2 by done. lia.
Qed.

Lemma voted_at_init i a : voted_at init i a = false.
Proof. unfold voted_at. cbn [_hasVoted init]. by rewrite lookup_empty. Qed.

Lemma voted_at_create e t o s n w i a :
  wf w → wf_call (CreateVote t o s n) →
  voted_at (step e (CreateVote t o s n) w) i a = voted_at w i a.
Proof.
  intros Hwf Hc.
  destruct (step_effect e _ w Hwf Hc) as [(err & _ & ->)|[_ Heff]]; [done|].
  set (w1 := step e (CreateVote t o s n) w) in *. clearbody w1.
  by inversion Heff; subst.
Qed.

(** * Further properties of the contract *)

(** ** The views *)

(** ** The ABI encoding *)

Lemma byte_of_Z_inj a b : byte_of_Z a = byte_of_Z b → a mod 256 = b mod 256.
Proof.
  assert (Hto : ∀ z, Byte.to_N (byte_of_Z z) = Z.to_N (z mod 256)).
  { intros z. unfold byte_of_Z.
    destruct (Byte.of_N (Z.to_N (z mod 256))) as [y|] eqn:Hy; cbn.
    - by apply Byte.to_of_N.
    - apply Byte.of_N_None_iff in Hy.
      pose proof (Z.mod_pos_bound z 256). lia. }
  intros H. apply (f_equal Byte.to_N) in H. rewrite !Hto in H.
  pose proof (Z.mod_pos_bound a 256). pose proof (Z.mod_pos_bound b 256). lia.
Qed.

Lemma big_endian_length n z : length (big_endian n z) = n.
Proof.
  revert z. induction n as [|n IH]; intros z; [done|].
  cbn [big_endian]. rewrite length_app, IH. cbn. lia.
Qed.

Lemma big_endian_inj n : ∀ a b,
  big_endian n a = big_endian n b →
  a mod 256 ^ Z.of_nat n = b mod 256 ^ Z.of_nat n.
Proof.
  induction n as [|n IH]; intros a b H; [by rewrite !Z.mod_1_r|].
  cbn [big_endian] in H. apply app_inj_tail in H as [H1 H2].
  apply IH in H1. apply byte_of_Z_inj in H2.
  assert (Hpos : 0 < 256 ^ Z.of_nat n) by (apply Z.pow_pos_nonneg; lia).
  rewrite Nat2Z.inj_succ, Z.pow_succ_r by lia.
  rewrite !Z.rem_mul_r by lia. congruence.
Qed.

Lemma abi_word_inj a b :
  0 ≤ a < 2 ^ 32 → 0 ≤ b < 2 ^ 32 → abi_word a = abi_word b → a = b.
Proof.
  intros Ha Hb H. apply big_endian_inj in H.
  change (256 ^ Z.of_nat 32) with (2 ^ 256) in H.
  rewrite !Z.mod_small in H by lia. done.
Qed.

Lemma abi_encode_values_length vs :
  length (abi_encode_values vs) = (32 * length vs)%nat.
Proof.
  induction vs as [|v vs IH]; [done|].
  change (abi_encode_values (v :: vs))
    with (abi_word v ++ abi_encode_values vs).
  rewrite length_app, IH. unfold abi_word. rewrite big_endian_length.
  cbn [length]. lia.
Qed.

Lemma abi_encode_length cs :
  length (abi_encode cs) = (32 * (length cs + 2))%nat.
Proof.
  unfold abi_encode, abi_word.
  rewrite !length_app, !big_endian_length, abi_encode_values_length. lia.
Qed.

Lemma abi_encode_values_inj a : ∀ b,
  Forall (λ x, 0 ≤ x < 2 ^ 32) a → Forall (λ x, 0 ≤ x < 2 ^ 32) b →
  abi_encode_values a = abi_encode_values b → a = b.
Proof.
  induction a as [|x a IH]; intros [|y b] Ha Hb H; [done|..].
  - apply (f_equal length) in H. rewrite !abi_encode_values_length in H.
    cbn [length] in H. lia.
  - apply (f_equal length) in H. rewrite !abi_encode_values_length in H.
    cbn [length] in H. lia.
  - apply Forall_cons in Ha as [Hx Ha]. apply Forall_cons in Hb as [Hy Hb].
    change (abi_word x ++ abi_encode_values a
            = abi_word y ++ abi_encode_values b) in H.
    apply app_inj_1 in H as [H1 H2];
      [|by unfold abi_word; rewrite !big_endian_length].
    f_equal; [by apply abi_word_inj|by apply IH].
Qed.

Lemma abi_encode_inj a b :
  Forall (λ x, 0 ≤ x < 2 ^ 32) a → Forall (λ x, 0 ≤ x < 2 ^ 32) b →
  abi_encode a = abi_encode b → a = b.
Proof.
  intros Ha Hb H. unfold abi_encode in H.
  apply app_inj_1 in H as [_ H]; [|done].
  apply app_inj_1 in H as [_ H];
    [|by unfold abi_word; rewrite !big_endian_length].
  by apply abi_encode_values_inj.
Qed.

Lemma bytes_eqb_eq a : ∀ b, bytes_eqb a b = true → a = b.
Proof.
  induction a as [|x a IH]; intros [|y b] H; try done.
  cbn [bytes_eqb] in H. apply andb_true_iff in H as [H1 H2].
  f_equal; [by apply Byte.byte_dec_bl|by apply IH].
Qed.

Lemma _getVote_eq i w :
  _getVote i w =
    if (i =? 0) || (i >? _voteCount w) then inl (VoteNotFound i)
    else inr (i, w).
Proof. unfold _getVote. tx_unfold. by destruct (_ || _). Qed.

(** X1.  [VoteNotFound] is the answer exactly to the ids that are zero or
    above the poll count: on such an id every entry point and every view
    that takes an id reverts with [VoteNotFound] of that id, before
    anything else is looked at; on the id of a poll none of [castVote],
    [requestResultsDecryption] and [publishResults] reverts with
    [VoteNotFound], the views that only read succeed, and
    [getPublicResults] succeeds once results are published and reverts
    with [ResultsNotReady] before. *)
Theorem missing_poll_rejected e i a x p cs w :
  reachable w → 0 ≤ i →
  (¬ 1 ≤ i ≤ _voteCount w →
     outcome (castVote e i x p w) = Some (VoteNotFound i) ∧
     outcome (requestResultsDecryption e i w) = Some (VoteNotFound i) ∧
     outcome (publishResults e i cs p w) = Some (VoteNotFound i) ∧
     outcome (getVote i w) = Some (VoteNotFound i) ∧
     outcome (getEncryptedCounts i w) = Some (VoteNotFound i) ∧
     outcome (getPublicResults i w) = Some (VoteNotFound i) ∧
     outcome (hasVoted i a w) = Some (VoteNotFound i)) ∧
  (1 ≤ i ≤ _voteCount w →
     (∀ j, outcome (castVote e i x p w) ≠ Some (VoteNotFound j)) ∧
     (∀ j, outcome (requestResultsDecryption e i w) ≠ Some (VoteNotFound j)) ∧
     (∀ j, outcome (publishResults e i cs p w) ≠ Some (VoteNotFound j)) ∧
     outcome (getVote i w) = None ∧
     outcome (getEncryptedCounts i w) = None ∧
     outcome (hasVoted i a w) = None ∧
     (outcome (getPublicResults i w) = None
        ↔ resultsPublished (votes_at w i) = true) ∧
     (resultsPublished (votes_at w i) = false →
        outcome (getPublicResults i w) = Some (ResultsNotReady i))).
Proof.
  intros Hr Hi. apply reachable_wf in Hr.
  rewrite castVote_eq, publishResults_eq, requestResultsDecryption_eq by done.
  unfold getVote, getEncryptedCounts, getPublicResults, hasVoted.
  unfold mbind, tx_bind. rewrite !_getVote_eq.
  split; intros Hex.
  - assert (Hb : (i =? 0) || (i >? _voteCount w) = true).
    { apply not_false_iff_true. by rewrite exists_test. }
    rewrite Hb. by split_and!.
  - rewrite (proj2 (exists_test w i Hi) Hex). tx_unfold. cbn zeta.
    split_and!; try done.
    + intros j. destruct (block_timestamp e <? _); [done|].
      destruct (block_timestamp e >? _); [done|].
      destruct (voted_at w i (msg_sender e)); [done|].
      by destruct (FHE_fromExternal (msg_sender e) x p).
    + intros j. destruct (block_timestamp e <=? _); [done|].
      by destruct (decryptionRequested (votes_at w i)).
    + intros j. destruct (negb (decryptionRequested (votes_at w i))); [done|].
      destruct (resultsPublished (votes_at w i)); [done|].
      destruct (negb (_ =? _)); [done|].
      by destruct (negb (FHE_checkSignatures _ _ _)).
    + destruct (resultsPublished (votes_at w i)); cbn; split; done.
    + by intros ->.
Qed.

(** X2.  What [createVote] stored is what [getVote] returns for the new id
    from then on: the title, the options, the two times and the creator
    are those of the creating call after any number of later transactions;
    right after the creation both flags read false. *)
Theorem createVote_getVote e t o s n w w' :
  reachable w → wf_call (CreateVote t o s n) →
  succeeds (createVote e t o s n w) →
  let w1 := step e (CreateVote t o s n) w in
  let i := _voteCount w + 1 in
  later w1 w' →
  getVote i w1 = inr ((t, o, s, n, msg_sender e, false, false), w1) ∧
  ∃ requested published,
    getVote i w' = inr ((t, o, s, n, msg_sender e, requested, published), w').
Proof.
  intros Hr Hc Hs w1 i Hl. apply reachable_wf in Hr.
  destruct (succeeds_effect e _ w Hr Hc (succeeds_createVote _ _ _ _ _ _ Hs))
    as [_ Heff].
  pose proof (wf_step e _ w Hr Hc) as Hwf1. fold w1 in Heff, Hwf1.
  assert (H1 : _votes w1 !! i =
    Some (mkVote t o s n (msg_sender e) false false
            (replicate (length o) (FHE_asEuint32 0)) [])).
  { clearbody w1. inversion Heff; subst. cbn [_votes]. apply lookup_insert_eq. }
  assert (Hview : ∀ w0 v, wf w0 → _votes w0 !! i = Some v →
    getVote i w0 = inr ((title v, options v, startTime v, endTime v, creator v,
                         decryptionRequested v, resultsPublished v), w0)).
  { intros w0 v Hwf0 Hv. unfold getVote, mbind, tx_bind.
    rewrite _getVote_eq.
    assert (Hex : 1 ≤ i ≤ _voteCount w0) by (apply (wf_slots w0 Hwf0); eauto).
    rewrite (proj2 (exists_test w0 i ltac:(lia)) Hex). tx_unfold.
    by rewrite (votes_at_Some _ _ _ Hv). }
  split.
  - by rewrite (Hview w1 _ Hwf1 H1).
  - destruct (later_persists _ _ _ _ Hwf1 Hl H1)
      as (v' & Hv' & Ht & Ho & Hst & Hen & Hcr & _).
    rewrite (Hview w' v' (later_wf _ _ Hwf1 Hl) Hv').
    cbn in Ht, Ho, Hst, Hen, Hcr. rewrite Ht, Ho, Hst, Hen, Hcr. eauto.
Qed.

(** X3.  [getPublicResults] reverts with [ResultsNotReady] on a poll
    whose results are not published, requested or not; after a successful
    [publishResults] it returns the published counts, one per option, and
    keeps returning them after any number of later transactions. *)
Theorem publishResults_getPublicResults e i cs p w w' :
  reachable w → wf_call (PublishResults i cs p) →
  1 ≤ i ≤ _voteCount w →
  let w1 := step e (PublishResults i cs p) w in
  (resultsPublished (votes_at w i) = false →
     outcome (getPublicResults i w) = Some (ResultsNotReady i)) ∧
  (succeeds (publishResults e i cs p w) → later w1 w' →
     getPublicResults i w' = inr (cs, w') ∧
     length cs = length (options (votes_at w' i))).
Proof.
  intros Hr Hc Hex w1. apply reachable_wf in Hr.
  pose proof (wf_step e _ w Hr Hc) as Hwf1. fold w1 in Hwf1.
  assert (Hview : ∀ w0, 1 ≤ i ≤ _voteCount w0 →
    getPublicResults i w0 =
      if negb (resultsPublished (votes_at w0 i)) then inl (ResultsNotReady i)
      else inr (publicResults (votes_at w0 i), w0)).
  { intros w0 Hex0. unfold getPublicResults, mbind, tx_bind.
    rewrite _getVote_eq.
    rewrite (proj2 (exists_test w0 i ltac:(lia)) Hex0). tx_unfold.
    by destruct (resultsPublished (votes_at w0 i)). }
  split.
  - intros Hp. by rewrite Hview, Hp.
  - intros Hs Hl.
    destruct (succeeds_effect e _ w Hr Hc Hs) as [_ Heff].
    fold w1 in Heff. clearbody w1.
    inversion Heff as [| | |j cs0 p0 u Hu _ _ Hlen _ Hj Hw1]; subst j cs0 p0 w1.
    match type of Hl with later ?w1 _ =>
      assert (Hs1 : _votes w1 !! i
                = Some (set_resultsPublished true (set_publicResults cs u)))
        by (cbn [_votes]; apply lookup_insert_eq)
    end.
    destruct (later_persists _ _ _ _ Hwf1 Hl Hs1)
      as (v' & Hv' & _ & Ho & _ & _ & _ & _ & Hp').
    destruct (Hp' eq_refl) as [Hp1 Hp2].
    pose proof (later_wf _ _ Hwf1 Hl) as Hwf'.
    assert (Hex' : 1 ≤ i ≤ _voteCount w') by (apply (wf_slots w' Hwf'); eauto).
    rewrite (Hview w' Hex'), (votes_at_Some _ _ _ Hv'), Hp1, Hp2, Ho.
    by cbn.
Qed.

(** ** The event log *)

Lemma voted_at_update w n m i a j b acl pub ev :
  voted_at (mkWorld n m (<[(i, a) := true]> (_hasVoted w)) acl pub ev) j b =
    if decide ((i, a) = (j, b)) then true else voted_at w j b.
Proof.
  unfold voted_at. cbn [_hasVoted]. case_decide as Hij.
  - rewrite Hij. by rewrite lookup_insert_eq.
  - by rewrite lookup_insert_ne.
Qed.

Lemma log_ok_init : log_ok init.
Proof.
  split; cbn [events init]; intros.
  - rewrite voted_at_init. split; [by intros ?%elem_of_nil|done].
  - split; [by intros ?%elem_of_nil|done].
  - split; [by intros ?%elem_of_nil|done].
  - split; [by intros ?%elem_of_nil|]. cbn. lia.
  - constructor.
Qed.

Lemma log_ok_effect e c w w' : wf w → log_ok w → effect e w c w' → log_ok w'.
Proof.
  intros Hwf [Hcast Hreq Hpub Hcre Hnd] Heff.
  destruct Heff as [t o s n Ho Hsn Hn Hmax
                   |j x p u choice Hu Ht Hnv Hch
                   |j u Hu Ht Hd
                   |j cs p u Hu Hd Hp Hlen Hsig].
  - assert (Hk : votes_at w (_voteCount w + 1) = emptyVote).
    { apply votes_at_None, unset_slot; [done|lia]. }
    split; cbn [events _voteCount]; intros.
    + rewrite elem_of_app, list_elem_of_singleton, Hcast. unfold voted_at.
      cbn [_hasVoted]. intuition congruence.
    + rewrite elem_of_app, list_elem_of_singleton, Hreq, votes_at_update.
      case_decide; subst; [rewrite Hk|]; intuition congruence.
    + rewrite elem_of_app, list_elem_of_singleton, Hpub, votes_at_update.
      case_decide; subst; [rewrite Hk|]; intuition congruence.
    + rewrite elem_of_app, list_elem_of_singleton, Hcre, votes_at_update.
      case_decide as Hi; subst; cbn.
      * pose proof (wf_count w Hwf). split.
        -- intros [[? _]|Heq]; [lia|]. injection Heq as -> -> -> ->.
           split_and!; (done || lia).
        -- intros (_ & <- & <- & <- & <-). by right.
      * split.
        -- intros [[? ?]|Heq]; [split; [lia|done]|]. by injection Heq.
        -- intros [? ?]. left. split; [lia|done].
    + apply NoDup_app. split_and!; [done| |apply NoDup_singleton].
      intros ev Hev ->%list_elem_of_singleton. apply Hcre in Hev. lia.
  - split; cbn [events _voteCount]; intros.
    + rewrite elem_of_app, list_elem_of_singleton, Hcast, voted_at_update.
      case_decide as Hij; [injection Hij as <- <-|]; intuition congruence.
    + rewrite elem_of_app, list_elem_of_singleton, Hreq, votes_at_update.
      case_decide; subst; [rewrite (votes_at_Some _ _ _ Hu)|]; intuition congruence.
    + rewrite elem_of_app, list_elem_of_singleton, Hpub, votes_at_update.
      case_decide; subst; [rewrite (votes_at_Some _ _ _ Hu)|]; intuition congruence.
    + rewrite elem_of_app, list_elem_of_singleton, Hcre, votes_at_update.
      case_decide; subst; [rewrite (votes_at_Some _ _ _ Hu)|]; intuition congruence.
    + apply NoDup_app. split_and!; [done| |apply NoDup_singleton].
      intros ev Hev ->%list_elem_of_singleton. apply Hcast in Hev. congruence.
  - split; cbn [events _voteCount]; intros.
    + rewrite elem_of_app, list_elem_of_singleton, Hcast. unfold voted_at.
      cbn [_hasVoted]. intuition congruence.
    + rewrite elem_of_app, list_elem_of_singleton, Hreq, votes_at_update.
      case_decide; subst; intuition congruence.
    + rewrite elem_of_app, list_elem_of_singleton, Hpub, votes_at_update.
      case_decide; subst; [rewrite (votes_at_Some _ _ _ Hu)|]; intuition congruence.
    + rewrite elem_of_app, list_elem_of_singleton, Hcre, votes_at_update.
      case_decide; subst; [rewrite (votes_at_Some _ _ _ Hu)|]; intuition congruence.
    + apply NoDup_app. split_and!; [done| |apply NoDup_singleton].
      intros ev Hev ->%list_elem_of_singleton. apply Hreq in Hev.
      rewrite (votes_at_Some _ _ _ Hu) in Hev. congruence.
  - split; cbn [events _voteCount]; intros.
    + rewrite elem_of_app, list_elem_of_singleton, Hcast. unfold voted_at.
      cbn [_hasVoted]. intuition congruence.
    + rewrite elem_of_app, list_elem_of_singleton, Hreq, votes_at_update.
      case_decide; subst; [rewrite (votes_at_Some _ _ _ Hu)|]; intuition congruence.
    + rewrite elem_of_app, list_elem_of_singleton, Hpub, votes_at_update.
      case_decide; subst; intuition congruence.
    + rewrite elem_of_app, list_elem_of_singleton, Hcre, votes_at_update.
      case_decide; subst; [rewrite (votes_at_Some _ _ _ Hu)|]; intuition congruence.
    + apply NoDup_app. split_and!; [done| |apply NoDup_singleton].
      intros ev Hev ->%list_elem_of_singleton. apply Hpub in Hev.
      rewrite (votes_at_Some _ _ _ Hu) in Hev. congruence.
Qed.

Lemma reachable_log_ok w : reachable w → log_ok w.
Proof.
  induction 1 as [|e c w Hc Hr IH]; [apply log_ok_init|].
  pose proof (reachable_wf _ Hr) as Hwf.
  destruct (step_effect e c w Hwf Hc) as [(err & _ & ->)|[_ Heff]]; [done|].
  by eapply log_ok_effect.
Qed.

Lemma voted_exists w i a :
  reachable w → voted_at w i a = true → 1 ≤ i ≤ _voteCount w.
Proof.
  induction 1 as [|e c w Hc Hr IH]; [by rewrite voted_at_init|].
  pose proof (reachable_wf _ Hr) as Hwf.
  destruct (step_effect e c w Hwf Hc) as [(err & _ & ->)|[_ Heff]]; [done|].
  destruct Heff as [t o s n|j x p u choice Hu| |];
    try (unfold voted_at in *; cbn [_hasVoted _voteCount]; intros Hv;
         specialize (IH Hv); lia).
  rewrite voted_at_update. cbn [_voteCount]. case_decide as Hij; [|done].
  injection Hij as <- <-. intros _. apply (wf_slots w Hwf). eauto.
Qed.

(** X4.  [hasVoted] returns true for a poll and an account exactly when a
    [VoteCast] event for that poll and account is in the log; no such
    event is logged for an id that is not a poll. *)
Theorem hasVoted_iff_logged i a w :
  reachable w → 0 ≤ i →
  (VoteCast i a ∈ events w ↔ hasVoted i a w = inr (true, w)) ∧
  (VoteCast i a ∈ events w → 1 ≤ i ≤ _voteCount w).
Proof.
  intros Hr Hi. pose proof (reachable_log_ok w Hr) as Hlog.
  rewrite (log_cast w Hlog).
  assert (Hview : hasVoted i a w =
    if (i =? 0) || (i >? _voteCount w) then inl (VoteNotFound i)
    else inr (voted_at w i a, w)).
  { unfold hasVoted, mbind, tx_bind. rewrite _getVote_eq.
    destruct (_ || _); [done|]. by tx_unfold. }
  split; [|by apply voted_exists]. rewrite Hview. split.
  - intros Hv. rewrite (proj2 (exists_test w i Hi) (voted_exists w i a Hr Hv)).
    by rewrite Hv.
  - destruct (_ || _); [done|]. by intros [= ->].
Qed.

(** X5.  The log mirrors the storage: [ResultsDecryptionRequested] is
    logged for exactly the polls whose [decryptionRequested] flag is set,
    [ResultsPublished] for exactly those whose [resultsPublished] flag is
    set, and [VoteCreated] with exactly the id, creator, title and times of
    each stored poll. *)
Theorem log_mirrors_storage w i :
  reachable w →
  (ResultsDecryptionRequested i ∈ events w
     ↔ decryptionRequested (votes_at w i) = true) ∧
  (ResultsPublished i ∈ events w ↔ resultsPublished (votes_at w i) = true) ∧
  (∀ c t s n,
     VoteCreated i c t s n ∈ events w
       ↔ 1 ≤ i ≤ _voteCount w ∧
         creator (votes_at w i) = c ∧ title (votes_at w i) = t ∧
         startTime (votes_at w i) = s ∧ endTime (votes_at w i) = n).
Proof.
  intros Hr. destruct (reachable_log_ok w Hr) as [_ Hreq Hpub Hcre _].
  split_and!; [apply Hreq|apply Hpub|apply Hcre].
Qed.

(** X6.  No event is logged twice: one [VoteCreated] per id, one
    [VoteCast] per poll and account, one [ResultsDecryptionRequested] and
    one [ResultsPublished] per poll. *)
Theorem events_logged_once w : reachable w → NoDup (events w).
Proof. intros Hr. apply (log_nodup w (reachable_log_ok w Hr)). Qed.

(** X7.  The [VoteCreated] events carry the ids 1, 2, ... in order, and
    [getVoteCount] returns how many of them there are. *)
Theorem getVoteCount_counts_created w :
  reachable w →
  omap created_id (events w)
    = (λ k, Z.of_nat k + 1) <$> seq 0 (Z.to_nat (_voteCount w)) ∧
  getVoteCount w
    = inr (Z.of_nat (length (omap created_id (events w))), w).
Proof.
  intros Hr.
  assert (Hids : omap created_id (events w)
    = (λ k, Z.of_nat k + 1) <$> seq 0 (Z.to_nat (_voteCount w))).
  { induction Hr as [|e c w Hc Hr IH]; [done|].
    pose proof (reachable_wf _ Hr) as Hwf. pose proof (wf_count w Hwf).
    destruct (step_effect e c w Hwf Hc) as [(err & _ & ->)|[_ Heff]]; [done|].
    destruct Heff; cbn [events _voteCount]; rewrite omap_app, IH; cbn;
      rewrite ?app_nil_r; try done.
    replace (Z.to_nat (_voteCount w + 1)) with (S (Z.to_nat (_voteCount w)))
      by lia.
    rewrite seq_S, fmap_app. cbn. do 2 f_equal. lia. }
  split; [done|]. rewrite Hids, length_fmap, length_seq.
  unfold getVoteCount. tx_unfold.
  pose proof (wf_count w (reachable_wf _ Hr)). do 2 f_equal. lia.
Qed.

(** ** Ballots *)

(** X8.  An accepted ballot adds one, modulo 2^32, to the decrypted
    accumulator whose index is the clear choice and leaves the others as
    they are.  The choice is not checked against the number of options: a
    ballot whose choice is no option index is accepted, marks the voter
    and changes no count. *)
Theorem castVote_tally e i x p w :
  reachable w → wf_call (CastVote i x p) →
  succeeds (castVote e i x p w) →
  let w' := step e (CastVote i x p) w in
  ∃ choice, FHE_fromExternal (msg_sender e) x p = Some choice ∧
    tally w' i =
      imap (λ k t, if bool_decide (decrypt choice = Z.of_nat k)
                   then (t + 1) mod 2 ^ 32 else t) (tally w i) ∧
    (Z.of_nat (length (options (votes_at w i))) ≤ decrypt choice →
       tally w' i = tally w i ∧ voted_at w' i (msg_sender e) = true).
Proof.
  intros Hr Hc Hs w'. apply reachable_wf in Hr.
  destruct (succeeds_effect e _ w Hr Hc Hs) as [_ Heff].
  fold w' in Heff. clearbody w'.
  inversion Heff as [|j y q u choice Hu _ _ Hch| |]; subst j y q w'.
  pose proof (wf_votes w Hr _ _ Hu) as Hok.
  pose proof (ok_options u Hok) as Hopt.
  assert (Ht : tally (mkWorld (_voteCount w)
      (<[i := set_encryptedCounts (imap (bump choice) (encryptedCounts u)) u]>
         (_votes w))
      (<[(i, msg_sender e) := true]> (_hasVoted w))
      (rev (imap (bump choice) (encryptedCounts u)) ++ acl_allowed w)
      (acl_public w) (events w ++ [VoteCast i (msg_sender e)])) i =
    imap (λ k t, if bool_decide (decrypt choice = Z.of_nat k)
                 then (t + 1) mod 2 ^ 32 else t) (tally w i)).
  { unfold tally. rewrite votes_at_update, decide_True by done.
    rewrite (votes_at_Some _ _ _ Hu). cbn [encryptedCounts set_encryptedCounts].
    rewrite fmap_imap, imap_fmap. apply imap_ext. intros k c Hk. cbn.
    apply lookup_lt_Some in Hk. rewrite (ok_counts u Hok) in Hk.
    rewrite decrypt_bump by lia. case_bool_decide; [done|].
    rewrite Z.add_0_r. apply Z.mod_small, decrypt_range. }
  exists choice. split_and!; [done|done|]. intros Hout. split.
  - rewrite Ht. rewrite <- (list_fmap_id (tally w i)) at 2.
    rewrite <- imap_const. apply imap_ext. intros k t Hk. cbn.
    apply lookup_lt_Some in Hk. unfold tally in Hk.
    rewrite length_fmap, (votes_at_Some _ _ _ Hu), (ok_counts u Hok) in Hk.
    rewrite (votes_at_Some _ _ _ Hu) in Hout.
    by rewrite bool_decide_eq_false_2 by lia.
  - rewrite voted_at_update. by rewrite decide_True.
Qed.

(** X9.  A ballot whose input proof is rejected does not use up the vote:
    the call reverts, the marker written before the proof is checked is
    rolled back with it, and the same account can still vote. *)
Theorem castVote_rejected_proof e i x p w :
  reachable w → wf_call (CastVote i x p) →
  1 ≤ i ≤ _voteCount w →
  startTime (votes_at w i) ≤ block_timestamp e ≤ endTime (votes_at w i) →
  voted_at w i (msg_sender e) = false →
  FHE_fromExternal (msg_sender e) x p = None →
  let w' := step e (CastVote i x p) w in
  outcome (castVote e i x p w) = Some InputProofInvalid ∧
  voted_at w' i (msg_sender e) = false ∧
  ∀ x' p', is_Some (FHE_fromExternal (msg_sender e) x' p') →
    succeeds (castVote e i x' p' w').
Proof.
  intros Hr Hc Hex Ht Hnv Hbad w'. apply reachable_wf in Hr.
  assert (Hcast : ∀ x0 p0, outcome (castVote e i x0 p0 w) =
    match FHE_fromExternal (msg_sender e) x0 p0 with
    | None => Some InputProofInvalid
    | Some _ => None
    end).
  { intros x0 p0. rewrite castVote_eq by (done || apply Hc).
    rewrite (proj2 (exists_test w i (proj1 Hc)) Hex). cbn zeta.
    rewrite (proj2 (Z.ltb_ge _ _)) by lia.
    rewrite Z.gtb_ltb, (proj2 (Z.ltb_ge _ _)) by lia.
    rewrite Hnv. by destruct (FHE_fromExternal (msg_sender e) x0 p0). }
  assert (Hout : outcome (castVote e i x p w) = Some InputProofInvalid).
  { by rewrite Hcast, Hbad. }
  assert (Hw' : w' = w) by (by eapply (fails_step e (CastVote i x p))).
  rewrite Hw'. split_and!; [done|done|].
  intros x' p' [c Hsome]. unfold succeeds. by rewrite Hcast, Hsome.
Qed.

Lemma outside_window_step e c w i v :
  wf w → wf_call c → _votes w !! i = Some v →
  block_timestamp e < startTime v ∨ endTime v < block_timestamp e →
  ∃ v', _votes (step e c w) !! i = Some v' ∧
    encryptedCounts v' = encryptedCounts v ∧
    startTime v' = startTime v ∧ endTime v' = endTime v ∧
    ∀ a, voted_at (step e c w) i a = voted_at w i a.
Proof.
  intros Hwf Hc Hv Hout.
  destruct (step_effect e c w Hwf Hc) as [(err & _ & ->)|[_ Heff]]; [eauto 10|].
  destruct Heff as [t o s n|j x p u choice Hu Ht|j u Hu|j cs p u Hu];
    cbn [_votes].
  - exists v. rewrite lookup_insert_ne; [done|].
    intros <-. assert (is_Some (_votes w !! (_voteCount w + 1))) as Hs by eauto.
    apply (wf_slots w Hwf) in Hs. lia.
  - destruct (decide (j = i)) as [->|Hne].
    + replace u with v in * by congruence. lia.
    + exists v. rewrite lookup_insert_ne by done. split_and!; try done.
      intros a. rewrite voted_at_update. rewrite decide_False; [done|].
      by intros [= ? ?].
  - destruct (decide (j = i)) as [->|Hne].
    + replace u with v in * by congruence. rewrite lookup_insert_eq. eauto 10.
    + exists v. by rewrite lookup_insert_ne.
  - destruct (decide (j = i)) as [->|Hne].
    + replace u with v in * by congruence. rewrite lookup_insert_eq. eauto 10.
    + exists v. by rewrite lookup_insert_ne.
Qed.

Lemma frozen_run i tr : ∀ w v,
  wf w → _votes w !! i = Some v →
  Forall (λ ec, wf_call ec.2 ∧
            (block_timestamp ec.1 < startTime v ∨
             endTime v < block_timestamp ec.1)) tr →
  encryptedCounts (votes_at (run tr w) i) = encryptedCounts v ∧
  ∀ a, voted_at (run tr w) i a = voted_at w i a.
Proof.
  induction tr as [|[e c] tr IH]; intros w v Hwf Hv Htr.
  - cbn [run]. by rewrite (votes_at_Some _ _ _ Hv).
  - apply Forall_cons in Htr as [[Hc Hout] Htr]. cbn [fst snd] in Hc, Hout.
    cbn [run].
    destruct (outside_window_step e c w i v Hwf Hc Hv Hout)
      as (v' & Hv' & Hcounts & Hs & He & Hvoted).
    pose proof (wf_step e c w Hwf Hc) as Hwf'.
    destruct (IH (step e c w) v' Hwf' Hv') as [H1 H2].
    { by rewrite Hs, He. }
    split; [by rewrite H1|]. intros a. by rewrite H2.
Qed.

(** X10.  Transactions in blocks that lie outside the window of a poll,
    before [startTime] or after [endTime], never change its accumulators
    or its markers, whatever they are and however many. *)
Theorem tally_frozen_outside_window i w tr :
  reachable w → 1 ≤ i ≤ _voteCount w →
  Forall (λ ec, wf_call ec.2 ∧
            (block_timestamp ec.1 < startTime (votes_at w i) ∨
             endTime (votes_at w i) < block_timestamp ec.1)) tr →
  encryptedCounts (votes_at (run tr w) i) = encryptedCounts (votes_at w i) ∧
  ∀ a, voted_at (run tr w) i a = voted_at w i a.
Proof.
  intros Hr Hex Htr. apply reachable_wf in Hr.
  destruct (proj2 (wf_slots w Hr i) Hex) as [v Hv].
  rewrite (votes_at_Some _ _ _ Hv) in *. by apply frozen_run.
Qed.

(** X11.  The contract keeps access to its own ciphertexts: in every
    reachable world every accumulator of every poll is on the list of
    handles that [FHE.allowThis] has granted to the contract. *)
Theorem accumulators_allowed w i x :
  reachable w →
  x ∈ encryptedCounts (votes_at w i) → x ∈ acl_allowed w.
Proof.
  intros Hr. revert i x.
  induction Hr as [|e c w Hc Hr IH]; intros i x.
  { unfold votes_at. cbn. by intros ?%elem_of_nil. }
  pose proof (reachable_wf _ Hr) as Hwf.
  destruct (step_effect e c w Hwf Hc) as [(err & _ & ->)|[_ Heff]]; [apply IH|].
  destruct Heff as [t o s n|j y p u choice Hu|j u Hu|j cs p u Hu];
    rewrite votes_at_update; cbn [acl_allowed]; case_decide; subst;
    cbn [encryptedCounts set_encryptedCounts set_decryptionRequested
         set_resultsPublished set_publicResults];
    rewrite ?elem_of_app, ?elem_of_rev;
    try rewrite <- (votes_at_Some _ _ _ Hu); eauto.
Qed.

(** ** Histories in block order *)

Lemma chrono_reachable t w : chrono t w → reachable w.
Proof. induction 1; [constructor|by constructor]. Qed.

Lemma chrono_run tr : ∀ t w,
  chrono t w → chronological t tr → chrono (last_time t tr) (run tr w).
Proof.
  induction tr as [|[e c] tr IH]; intros t w Hw Htr; [done|].
  destruct Htr as (Hc & Ht & Htr). cbn [run last_time].
  apply IH; [|done]. by apply (chrono_step t).
Qed.

Lemma chronological_after t tr z :
  chronological t tr → z < t →
  Forall (λ ec, wf_call ec.2 ∧ z < block_timestamp ec.1) tr.
Proof.
  revert t. induction tr as [|[e c] tr IH]; intros t Htr Hz; [constructor|].
  destruct Htr as (Hc & Ht & Htr). constructor; [cbn; split; [done|lia]|].
  apply (IH (block_timestamp e)); [done|lia].
Qed.

Lemma closed_ok_mono t t' w w' v :
  closed_ok t w v → t ≤ t' →
  (∀ x, x ∈ acl_public w → x ∈ acl_public w') →
  closed_ok t' w' v.
Proof. intros [H1 H2 H3] Ht Hp. split; [lia|auto|done]. Qed.

Lemma chrono_closed t w :
  chrono t w →
  ∀ i v, _votes w !! i = Some v → decryptionRequested v = true →
    closed_ok t w v.
Proof.
  induction 1 as [|t e c w Hw IH Hc Ht]; intros i v Hv Hd.
  { cbn [_votes init] in Hv. by rewrite lookup_empty in Hv. }
  pose proof (reachable_wf _ (chrono_reachable _ _ Hw)) as Hwf.
  destruct (step_effect e c w Hwf Hc) as [(err & _ & Heq)|[_ Heff]].
  { rewrite Heq in Hv. eapply closed_ok_mono; [by eapply IH|done|].
    by rewrite Heq. }
  revert Hv.
  destruct Heff as [t0 o s n|j x p u choice Hu Hwin|j u Hu Hend Hdu
                   |j cs p u Hu Hdu Hpu Hlen Hsig];
    cbn [_votes]; (destruct (decide (j = i)) as [->|Hne] ||
                   destruct (decide (_voteCount w + 1 = i)) as [<-|Hne]);
    rewrite ?lookup_insert_eq, ?lookup_insert_ne by done; intros Hv;
    try (injection Hv as <-); try (by cbn in Hd);
    try (apply (closed_ok_mono t _ w); [by apply (IH i)|done|];
         cbn [acl_public]; intros y Hy; rewrite ?elem_of_app; by eauto).
  - cbn in Hd. destruct (IH _ _ Hu Hd) as [Hlt _ _]. lia.
  - split; cbn; [done| |].
    + intros y Hy. apply elem_of_app. left. by apply elem_of_rev.
    + intros Hp. pose proof (ok_flags u (wf_votes w Hwf _ _ Hu) Hp). congruence.
  - destruct (IH _ _ Hu Hdu) as [Hlt Hpub _]. split; cbn; [lia|done|].
    intros _. split; [apply Hc|eauto].
Qed.

(** X12.  In block order, once decryption of a poll has been requested
    its window is over, [getEncryptedCounts] returns its accumulators, and
    every one of them is on the list of publicly decryptable handles. *)
Theorem requested_accumulators_public t w i :
  chrono t w → decryptionRequested (votes_at w i) = true →
  endTime (votes_at w i) < t ∧
  getEncryptedCounts i w = inr (encryptedCounts (votes_at w i), w) ∧
  ∀ x, x ∈ encryptedCounts (votes_at w i) → x ∈ acl_public w.
Proof.
  intros Hw Hd. pose proof (chrono_reachable _ _ Hw) as Hwf.
  apply reachable_wf in Hwf.
  destruct (_votes w !! i) as [v|] eqn:Hv;
    [|by rewrite (votes_at_None _ _ Hv) in Hd].
  assert (Hex : 1 ≤ i ≤ _voteCount w) by (apply (wf_slots w Hwf); eauto).
  rewrite (votes_at_Some _ _ _ Hv) in *.
  destruct (chrono_closed t w Hw i v Hv Hd) as [H1 H2 _].
  split_and!; [done| |done].
  unfold getEncryptedCounts, mbind, tx_bind. rewrite _getVote_eq.
  rewrite (proj2 (exists_test w i ltac:(lia)) Hex). tx_unfold.
  by rewrite (votes_at_Some _ _ _ Hv).
Qed.

(** X13.  In block order, the accumulators of a poll are final once its
    decryption has been requested: no later transaction changes them or
    the markers of the poll. *)
Theorem accumulators_final t w i tr :
  chrono t w → decryptionRequested (votes_at w i) = true →
  chronological t tr →
  encryptedCounts (votes_at (run tr w) i) = encryptedCounts (votes_at w i) ∧
  ∀ a, voted_at (run tr w) i a = voted_at w i a.
Proof.
  intros Hw. unfold votes_at at 1 3.
  destruct (_votes w !! i) as [v|] eqn:Hv; [|done]. cbn.
  intros Hd Htr. destruct (chrono_closed t w Hw i v Hv Hd) as [Hlt _ _].
  apply frozen_run; [|done|].
  - apply reachable_wf. by eapply chrono_reachable.
  - eapply Forall_impl; [by eapply chronological_after|].
    intros [e c] [? ?]. cbn in *. split; [done|by right].
Qed.

(** X14.  In block order, the published results of a poll are backed by a
    decryption proof that verifies against the accumulators the poll has
    now and the payload [publishResults] builds from the results; if the
    library's check is sound for that payload, the published results are
    the decrypted accumulators. *)
Theorem published_results_verified t w i :
  chrono t w → resultsPublished (votes_at w i) = true →
  (∃ p, FHE_checkSignatures (encryptedCounts (votes_at w i))
          (abi_encode (publicResults (votes_at w i))) p = true) ∧
  ((∀ hs cs p, length hs = length cs → Forall (λ x, 0 ≤ x < 2 ^ 32) cs →
      FHE_checkSignatures hs (abi_encode cs) p = true → cs = decrypt <$> hs) →
     publicResults (votes_at w i) = tally w i).
Proof.
  intros Hw. unfold tally, votes_at.
  destruct (_votes w !! i) as [v|] eqn:Hv; [|done]. cbn. intros Hp.
  pose proof (reachable_wf _ (chrono_reachable _ _ Hw)) as Hwf.
  pose proof (wf_votes w Hwf _ _ Hv) as Hok.
  pose proof (ok_flags v Hok Hp) as Hd.
  destruct (chrono_closed t w Hw i v Hv Hd) as [_ _ Hres].
  destruct (Hres Hp) as [Hrange [p Hsig]]. split; [eauto|].
  intros Hsound. apply (Hsound _ _ p); [|done..].
  by rewrite (ok_counts v Hok), (ok_results v Hok Hp).
Qed.

(** X23.  A library whose check accepts only cleartexts of one word per
    handle never accepts what [publishResults] hands it, the encoding of
    an array, which is two words longer: in every reachable world no poll
    has published results, and every [publishResults] reverts and leaves
    the world as it was. *)
Theorem publishResults_word_payload w :
  (∀ hs cleartexts p, FHE_checkSignatures hs cleartexts p = true →
     length cleartexts = (32 * length hs)%nat) →
  reachable w →
  (∀ i, resultsPublished (votes_at w i) = false) ∧
  (∀ e i cs p, wf_call (PublishResults i cs p) →
     outcome (publishResults e i cs p w) ≠ None ∧
     step e (PublishResults i cs p) w = w).
Proof.
  intros Hpay Hr.
  assert (Hno : ∀ v cs p, vote_ok v → length cs = length (options v) →
            FHE_checkSignatures (encryptedCounts v) (abi_encode cs) p = false).
  { intros v cs p Hok Hlen. apply not_true_is_false. intros Hsig.
    apply Hpay in Hsig. rewrite abi_encode_length, (ok_counts v Hok) in Hsig.
    lia. }
  split.
  - induction Hr as [|e c w Hc Hr IH]; intros i.
    { unfold votes_at. cbn [_votes init]. by rewrite lookup_empty. }
    pose proof (reachable_wf _ Hr) as Hwf.
    destruct (step_effect e c w Hwf Hc) as [(err & _ & ->)|[_ Heff]]; [done|].
    destruct Heff as [t0 o s n|j x p u choice Hu Hwin|j u Hu Hend Hdu
                     |j cs p u Hu Hdu Hpu Hlen Hsig];
      rewrite votes_at_update; case_decide; subst; try done.
    + cbn. rewrite <- (votes_at_Some _ _ _ Hu). apply IH.
    + cbn. rewrite <- (votes_at_Some _ _ _ Hu). apply IH.
    + by rewrite (Hno u cs p (wf_votes w Hwf _ _ Hu) Hlen) in Hsig.
  - intros e i cs p Hc. pose proof (reachable_wf _ Hr) as Hwf.
    assert (Hfail : outcome (publishResults e i cs p w) ≠ None).
    { rewrite publishResults_eq by (done || apply Hc).
      destruct (_ || _) eqn:Hex; [done|]. cbn zeta.
      destruct (exists_slot w i Hwf (proj1 (proj1 Hc)) Hex)
        as (v & Hv & -> & Hok).
      destruct (negb (decryptionRequested v)); [done|].
      destruct (resultsPublished v); [done|].
      destruct (Z.of_nat (length cs) =? _) eqn:Hlen; [|done].
      apply Z.eqb_eq in Hlen. cbn [negb].
      by rewrite (Hno v cs p Hok) by lia. }
    split; [done|].
    destruct (outcome (publishResults e i cs p w)) as [err|] eqn:Ho; [|done].
    by apply (fails_step e (PublishResults i cs p) w err).
Qed.

(** ** What the other entry points leave alone *)

(** X15.  A successful [createVote] adds one poll and one event: the
    polls that exist, all markers and the list of publicly decryptable
    handles are as before. *)
Theorem createVote_frame e t o s n w :
  reachable w → wf_call (CreateVote t o s n) →
  succeeds (createVote e t o s n w) →
  let w' := step e (CreateVote t o s n) w in
  _voteCount w' = _voteCount w + 1 ∧
  (∀ j, j ≠ _voteCount w + 1 → votes_at w' j = votes_at w j) ∧
  (∀ j a, voted_at w' j a = voted_at w j a) ∧
  acl_public w' = acl_public w ∧
  acl_allowed w' = encryptedCounts (votes_at w' (_voteCount w + 1)) ++ acl_allowed w ∧
  events w' = events w ++ [VoteCreated (_voteCount w + 1) (msg_sender e) t s n].
Proof.
  intros Hr Hc Hs w'. apply reachable_wf in Hr.
  destruct (succeeds_effect e _ w Hr Hc (succeeds_createVote _ _ _ _ _ _ Hs))
    as [_ Heff].
  fold w' in Heff. clearbody w'. inversion Heff; subst.
  cbn [_voteCount acl_public acl_allowed events].
  rewrite votes_at_update, decide_True by done. split_and!; try done.
  intros j Hj. rewrite votes_at_update. by rewrite decide_False.
Qed.

(** X16.  A successful [requestResultsDecryption] sets the flag of the
    poll, puts its accumulators on the list of publicly decryptable handles
    and logs one event: the accumulators themselves, every other field of
    the poll, the other polls, all markers, the poll count and the
    contract's own access list are as before. *)
Theorem requestResultsDecryption_frame e i w :
  reachable w → wf_call (RequestResultsDecryption i) →
  succeeds (requestResultsDecryption e i w) →
  let w' := step e (RequestResultsDecryption i) w in
  votes_at w' i = set_decryptionRequested true (votes_at w i) ∧
  (∀ j, j ≠ i → votes_at w' j = votes_at w j) ∧
  (∀ j a, voted_at w' j a = voted_at w j a) ∧
  _voteCount w' = _voteCount w ∧
  acl_allowed w' = acl_allowed w ∧
  acl_public w' = rev (encryptedCounts (votes_at w i)) ++ acl_public w ∧
  events w' = events w ++ [ResultsDecryptionRequested i].
Proof.
  intros Hr Hc Hs w'. apply reachable_wf in Hr.
  destruct (succeeds_effect e _ w Hr Hc Hs) as [_ Heff].
  fold w' in Heff. clearbody w'.
  inversion Heff as [| |j u Hu _ _|]; subst.
  cbn [_voteCount acl_public acl_allowed events].
  rewrite votes_at_update, decide_True by done.
  rewrite (votes_at_Some _ _ _ Hu). split_and!; try done.
  intros j Hj. rewrite votes_at_update. by rewrite decide_False.
Qed.

(** X17.  A successful [publishResults] writes the published results and
    the flag of the poll and logs one event: the accumulators, every other
    field of the poll, the other polls, all markers, the poll count and
    both access lists are as before. *)
Theorem publishResults_frame e i cs p w :
  reachable w → wf_call (PublishResults i cs p) →
  succeeds (publishResults e i cs p w) →
  let w' := step e (PublishResults i cs p) w in
  votes_at w' i
    = set_resultsPublished true (set_publicResults cs (votes_at w i)) ∧
  (∀ j, j ≠ i → votes_at w' j = votes_at w j) ∧
  (∀ j a, voted_at w' j a = voted_at w j a) ∧
  _voteCount w' = _voteCount w ∧
  acl_allowed w' = acl_allowed w ∧
  acl_public w' = acl_public w ∧
  events w' = events w ++ [ResultsPublished i].
Proof.
  intros Hr Hc Hs w'. apply reachable_wf in Hr.
  destruct (succeeds_effect e _ w Hr Hc Hs) as [_ Heff].
  fold w' in Heff. clearbody w'.
  inversion Heff as [| | |j cs0 p0 u Hu]; subst.
  cbn [_voteCount acl_public acl_allowed events].
  rewrite votes_at_update, decide_True by done.
  rewrite (votes_at_Some _ _ _ Hu). split_and!; try done.
  intros j Hj. rewrite votes_at_update. by rewrite decide_False.
Qed.

(** ** The client against the contract *)

(** X18.  [getStatus] shows a poll as live exactly from [startTime] to
    [endTime], both included, as upcoming before and as ended after; when
    the start is not after the end exactly one of the three flags is
    set. *)
Theorem getStatus_phases Number vote now :
  let st := VoteApp.getStatus Number vote now in
  let start := Number (VoteApp.startTime vote) in
  let end_ := Number (VoteApp.endTime vote) in
  (VoteApp.isActive st = true ↔ start ≤ now ≤ end_) ∧
  (VoteApp.label st = "Live" ↔ start ≤ now ≤ end_) ∧
  (VoteApp.label st = "Upcoming" ↔ now < start) ∧
  (VoteApp.label st = "Ended" ↔ start ≤ now ∧ end_ < now) ∧
  (start ≤ end_ →
     (VoteApp.isUpcoming st = true ↔ VoteApp.label st = "Upcoming") ∧
     (VoteApp.isEnded st = true ↔ VoteApp.label st = "Ended") ∧
     (VoteApp.isActive st = true ↔ VoteApp.label st = "Live")).
Proof.
  cbn zeta. unfold VoteApp.getStatus.
  destruct (now <? Number (VoteApp.startTime vote)) eqn:H1;
    destruct (now >? Number (VoteApp.endTime vote)) eqn:H2;
    b2p; cbn; split_and!; try (intros Hse; split_and!);
    split; intros; try done; try lia.
Qed.

(** X19.  For a poll of the contract whose times are safe integers and a
    clock that reads the block's timestamp, the client's status agrees
    with the contract: upcoming exactly when [castVote] reverts with
    [VotingNotStarted], ended exactly when it reverts with [VotingEnded],
    not ended exactly when [requestResultsDecryption] reverts with
    [VotingStillActive]; and [castVote] succeeds exactly when the status is
    active, the sender has no marker and the input proof is valid. *)
Theorem getStatus_agrees_with_contract Number vote e i x p w :
  reachable w → wf_call (CastVote i x p) →
  1 ≤ i ≤ _voteCount w →
  (∀ z, 0 ≤ z < 2 ^ 53 → Number z = z) →
  VoteApp.startTime vote = startTime (votes_at w i) →
  VoteApp.endTime vote = endTime (votes_at w i) →
  0 ≤ startTime (votes_at w i) → endTime (votes_at w i) < 2 ^ 53 →
  let st := VoteApp.getStatus Number vote (block_timestamp e) in
  (VoteApp.isUpcoming st = true
     ↔ outcome (castVote e i x p w) = Some (VotingNotStarted i)) ∧
  (VoteApp.isEnded st = true
     ↔ outcome (castVote e i x p w) = Some (VotingEnded i)) ∧
  (VoteApp.isEnded st = false
     ↔ outcome (requestResultsDecryption e i w) = Some (VotingStillActive i)) ∧
  (succeeds (castVote e i x p w)
     ↔ VoteApp.isActive st = true ∧ voted_at w i (msg_sender e) = false ∧
       is_Some (FHE_fromExternal (msg_sender e) x p)).
Proof.
  intros Hr Hc Hex HN Hs He Hs0 He53. apply reachable_wf in Hr.
  pose proof (proj2 (exists_test w i (proj1 Hc)) Hex) as Hexb.
  destruct (exists_slot w i Hr (proj1 Hc) Hexb) as (v & Hv & Hvv & Hok).
  pose proof (ok_times v Hok) as Hlt. rewrite Hvv in *.
  rewrite castVote_eq, requestResultsDecryption_eq by (done || apply Hc).
  rewrite Hexb. cbn zeta. rewrite Hvv. unfold VoteApp.getStatus.
  rewrite Hs, He, !HN by lia.
  destruct (block_timestamp e <? startTime v) eqn:H1;
    destruct (block_timestamp e >? endTime v) eqn:H2;
    destruct (block_timestamp e <=? endTime v) eqn:H3;
    b2p; try lia.
  all: destruct (voted_at w i (msg_sender e));
    [|destruct (FHE_fromExternal (msg_sender e) x p)];
    destruct (decryptionRequested v); unfold succeeds; cbn; split_and!.
  all: split; try done.
  all: try (by intros (? & ? & ?)).
  all: try (by intros (? & ? & [? ?])).
  all: by eauto.
Qed.

(** X20.  Before the count is loaded the client asks about no poll.  With
    fewer than 2^32 polls the ids it asks about are 1 to the poll count in
    order, which are exactly the ids on which [getVote] does not revert.
    From 2^32 polls on [voteIds] throws, for a conversion to a number that
    does not take a count of 2^53 or more below 2^53. *)
Theorem voteIds_are_the_polls Number w :
  reachable w →
  (∀ z, 0 ≤ z < 2 ^ 53 → Number z = z) →
  VoteApp.voteIds Number None = Some [] ∧
  (_voteCount w < 2 ^ 32 →
   ∃ ids, VoteApp.voteIds Number (Some (_voteCount w)) = Some ids ∧
     ids = (λ k, Z.of_nat k + 1) <$> seq 0 (Z.to_nat (_voteCount w)) ∧
     ∀ i, 0 ≤ i → (i ∈ ids ↔ outcome (getVote i w) = None)) ∧
  (2 ^ 32 ≤ _voteCount w →
   (∀ z, 2 ^ 53 ≤ z → 2 ^ 53 ≤ Number z) →
   VoteApp.voteIds Number (Some (_voteCount w)) = None).
Proof.
  intros Hr HN. apply reachable_wf in Hr. pose proof (wf_count w Hr) as H0.
  split; [done|]. split; cycle 1.
  { intros Hge Hmono. unfold VoteApp.voteIds.
    rewrite (proj2 (Z.eqb_neq _ _)) by lia.
    apply (proj2 (Z.ltb_ge _ _)) in Hge as Hge'.
    destruct (decide (_voteCount w < 2 ^ 53)) as [Hs|Hs].
    - rewrite HN by lia. by rewrite (proj2 (Z.ltb_ge _ _)) by lia.
    - pose proof (Hmono (_voteCount w) ltac:(lia)).
      by rewrite (proj2 (Z.ltb_ge _ _)) by lia. }
  intros Hlt. eexists. split_and!; [|done|].
  - unfold VoteApp.voteIds.
    assert (Hc : (if _voteCount w =? 0 then 0 else Number (_voteCount w))
                 = _voteCount w).
    { destruct (_voteCount w =? 0) eqn:Hz; b2p; [done|]. apply HN. lia. }
    rewrite Hc. by rewrite (proj2 (Z.ltb_lt _ _) Hlt).
  - intros i Hi. rewrite list_elem_of_fmap.
    unfold getVote, mbind, tx_bind. rewrite _getVote_eq.
    destruct ((i =? 0) || (i >? _voteCount w)) eqn:Hex.
    + assert (¬ 1 ≤ i ≤ _voteCount w) by (rewrite <- exists_test; congruence).
      split; [|done]. intros (k & -> & Hk%elem_of_seq). lia.
    + apply exists_test in Hex; [|done]. tx_unfold. split; [done|]. intros _.
      exists (Z.to_nat (i - 1)). rewrite elem_of_seq. lia.
Qed.

(** X21.  The client reads results only where they exist: if its entries
    carry the [resultsPublished] flags of the contract, [getPublicResults]
    does not revert on any id of [publishedVoteIds], and every entry with
    the flag set has its id there. *)
Theorem publishedVoteIds_readable votes w :
  reachable w →
  (∀ vote, vote ∈ votes →
     1 ≤ VoteApp.id vote ≤ _voteCount w ∧
     VoteApp.resultsPublished vote
       = resultsPublished (votes_at w (VoteApp.id vote))) →
  (∀ i, i ∈ VoteApp.publishedVoteIds votes →
     outcome (getPublicResults i w) = None) ∧
  (∀ vote, vote ∈ votes → VoteApp.resultsPublished vote = true →
     VoteApp.id vote ∈ VoteApp.publishedVoteIds votes).
Proof.
  intros Hr Hvotes. unfold VoteApp.publishedVoteIds. split.
  - intros i (vote & -> & [Hp Hin]%list_elem_of_filter)%list_elem_of_fmap.
    destruct (Hvotes vote Hin) as [Hex Hflag].
    unfold getPublicResults, mbind, tx_bind. rewrite _getVote_eq.
    rewrite (proj2 (exists_test w (VoteApp.id vote) ltac:(lia)) Hex).
    tx_unfold.
    rewrite <- Hflag, Hp. done.
  - intros vote Hin Hp. apply list_elem_of_fmap. exists vote. split; [done|].
    by apply list_elem_of_filter.
Qed.

End Proofs.

(** * The claims on the concrete run *)

Lemma ballots_cast_wf : Forall (λ ec, wf_call ec.2) ballots_cast.
Proof. repeat constructor; simpl; lia. Qed.

Lemma lunch_wf : wf_call lunch.
Proof. simpl. lia. Qed.

Lemma reachable_created : reachable w_created.
Proof. apply reachable_step; [apply lunch_wf|apply reachable_init]. Qed.

Lemma reachable_voted : reachable w_voted.
Proof. apply reachable_run; [apply reachable_created|apply ballots_cast_wf]. Qed.

Lemma reachable_requested : reachable w_requested.
Proof. apply reachable_step; [simpl; lia|apply reachable_voted]. Qed.

Lemma wf_env_create : wf_env env_create.
Proof. split; simpl; lia. Qed.

Lemma createVote_validation_and_allocation_witness :
  ∃ w', createVote env_create "Lunch" ["A"; "B"] 110 3700 init
          = inr (_voteCount init + 1, w') ∧
    _voteCount w' = _voteCount init + 1 ∧
    votes_at w' (_voteCount init + 1) =
      mkVote "Lunch" ["A"; "B"] 110 3700 (msg_sender env_create) false false
        (replicate (length ["A"; "B"]) (FHE_asEuint32 0)) [] ∧
    tally w' (_voteCount init + 1) = replicate (length ["A"; "B"]) 0.
Proof.
  pose proof (createVote_validation_and_allocation env_create "Lunch"
    ["A"; "B"] 110 3700 init reachable_init wf_env_create) as (_ & _ & H & _).
  apply H.
  - simpl. lia.
  - lia.
  - simpl. lia.
  - by vm_compute.
Defined.

Lemma createVote_postcondition_witness :
  let v := votes_at (step env_create (CreateVote "Lunch" ["A"; "B"] 110 3700) init)
             (_voteCount init + 1) in
  options v = ["A"; "B"] ∧ startTime v = 110 ∧ endTime v = 3700 ∧
  (2 ≤ length (options v) ≤ 4)%nat ∧ 0 ≤ startTime v < endTime v.
Proof.
  refine (createVote_postcondition env_create "Lunch" ["A"; "B"] 110 3700
            init reachable_init lunch_wf _).
  by vm_compute.
Defined.

(** C8 as stated fails: a poll whose start time is zero is accepted. *)
Lemma createVote_start_positive_counterexample :
  wf_call (CreateVote "Poll" ["A"; "B"] 0 100) ∧
  succeeds (createVote (mkEnv 7 50) "Poll" ["A"; "B"] 0 100 init) ∧
  startTime (votes_at (step (mkEnv 7 50) (CreateVote "Poll" ["A"; "B"] 0 100) init) 1)
    = 0 ∧
  ¬ 0 < startTime
          (votes_at (step (mkEnv 7 50) (CreateVote "Poll" ["A"; "B"] 0 100) init) 1).
Proof.
  assert (H : startTime (votes_at
    (step (mkEnv 7 50) (CreateVote "Poll" ["A"; "B"] 0 100) init) 1) = 0)
    by (by vm_compute).
  split_and!; [simpl; lia|by vm_compute|done|]. rewrite H. lia.
Qed.

Lemma castVote_precondition_order_witness :
  outcome (castVote (mkEnv 1 110) 1 (handle_of 0) proof_ok w_created) = None ∧
  outcome (castVote (mkEnv 1 3700) 1 (handle_of 0) proof_ok w_created) = None ∧
  outcome (castVote (mkEnv 1 109) 1 (handle_of 0) proof_ok w_created)
    = Some (VotingNotStarted 1) ∧
  outcome (castVote (mkEnv 1 3701) 1 (handle_of 0) proof_ok w_created)
    = Some (VotingEnded 1).
Proof.
  assert (Hc : wf_call (CastVote 1 (handle_of 0) proof_ok)) by (simpl; lia).
  assert (Hex : 1 ≤ 1 ≤ _voteCount w_created) by (by vm_compute).
  pose proof (castVote_precondition_order (mkEnv 1 110) 1 (handle_of 0)
    proof_ok w_created reachable_created Hc) as (_ & _ & _ & _ & H1).
  pose proof (castVote_precondition_order (mkEnv 1 3700) 1 (handle_of 0)
    proof_ok w_created reachable_created Hc) as (_ & _ & _ & _ & H2).
  pose proof (castVote_precondition_order (mkEnv 1 109) 1 (handle_of 0)
    proof_ok w_created reachable_created Hc) as (_ & H3 & _).
  pose proof (castVote_precondition_order (mkEnv 1 3701) 1 (handle_of 0)
    proof_ok w_created reachable_created Hc) as (_ & _ & H4 & _).
  split_and!.
  - destruct H1 as (_ & H1 & _); [done|by vm_compute|by eexists|].
    apply H1. by vm_compute.
  - destruct H2 as (_ & _ & H2); [done|by vm_compute|by eexists|].
    apply H2. by vm_compute.
  - apply H3; [done|by vm_compute].
  - apply H4; [done|by vm_compute|by vm_compute].
Defined.

(** C5 as stated fails: the window is not half-open, a ballot is accepted
    at [startTime] and at [endTime] alike. *)
Lemma castVote_window_counterexample :
  startTime (votes_at w_created 1) = 110 ∧
  endTime (votes_at w_created 1) = 3700 ∧
  outcome (castVote (mkEnv 1 110) 1 (handle_of 0) proof_ok w_created) = None ∧
  outcome (castVote (mkEnv 1 3700) 1 (handle_of 0) proof_ok w_created) = None.
Proof. split_and!; by vm_compute. Qed.

Lemma later_voted_created :
  later (step (mkEnv 1 120) (CastVote 1 (handle_of 0) proof_ok) w_created)
    w_voted.
Proof.
  apply later_step; [simpl; lia|]. apply later_step; [simpl; lia|].
  apply later_refl.
Qed.

Lemma castVote_once_witness :
  outcome (castVote (mkEnv 1 130) 1 (handle_of 1) proof_ok w_voted)
    = Some (AlreadyVoted 1 (msg_sender (mkEnv 1 120))) ∧
  step (mkEnv 1 130) (CastVote 1 (handle_of 1) proof_ok) w_voted = w_voted.
Proof.
  assert (Hc : wf_call (CastVote 1 (handle_of 0) proof_ok)) by (simpl; lia).
  assert (Hs : succeeds (castVote (mkEnv 1 120) 1 (handle_of 0) proof_ok
                           w_created)) by (by vm_compute).
  assert (Ht : block_timestamp (mkEnv 1 120) ≤ block_timestamp (mkEnv 1 130))
    by (simpl; lia).
  pose proof (castVote_once (mkEnv 1 120) 1 (handle_of 0) proof_ok w_created
                (mkEnv 1 130) (handle_of 1) proof_ok w_voted
                reachable_created Hc Hs later_voted_created eq_refl Ht)
    as (H1 & _ & H2 & _).
  split; [|exact H2]. apply H1. by vm_compute.
Defined.

(** C4 as stated fails: after the window has closed the second ballot of
    a voter is rejected with [VotingEnded], not [AlreadyVoted]. *)
Lemma castVote_once_counterexample :
  succeeds (castVote (mkEnv 1 120) 1 (handle_of 0) proof_ok w_created) ∧
  later (step (mkEnv 1 120) (CastVote 1 (handle_of 0) proof_ok) w_created)
    w_voted ∧
  outcome (castVote (mkEnv 1 3701) 1 (handle_of 0) proof_ok w_voted)
    = Some (VotingEnded 1) ∧
  outcome (castVote (mkEnv 1 3701) 1 (handle_of 0) proof_ok w_voted)
    ≠ Some (AlreadyVoted 1 1).
Proof.
  split_and!; [by vm_compute|apply later_voted_created|by vm_compute|].
  assert (H : outcome (castVote (mkEnv 1 3701) 1 (handle_of 0) proof_ok w_voted)
    = Some (VotingEnded 1)) by (by vm_compute).
  rewrite H. discriminate.
Qed.

Lemma requestResultsDecryption_boundary_witness :
  outcome (requestResultsDecryption (mkEnv 3 3700) 1 w_voted)
    = Some (VotingStillActive 1) ∧
  outcome (requestResultsDecryption env_request 1 w_voted) = None ∧
  decryptionRequested
    (votes_at (step env_request (RequestResultsDecryption 1) w_voted) 1)
    = true ∧
  (∀ x, x ∈ encryptedCounts (votes_at w_voted 1) → x ∈ acl_public w_requested) ∧
  outcome (requestResultsDecryption (mkEnv 3 3702) 1 w_requested)
    = Some (DecryptionAlreadyRequested 1).
Proof.
  assert (Hc : wf_call (RequestResultsDecryption 1)) by (simpl; lia).
  assert (Hex : 1 ≤ 1 ≤ _voteCount w_voted) by (by vm_compute).
  pose proof (requestResultsDecryption_boundary (mkEnv 3 3700) 1 w_voted
                reachable_voted Hc Hex) as (H1 & _).
  pose proof (requestResultsDecryption_boundary env_request 1 w_voted
                reachable_voted Hc Hex) as (_ & _ & _ & H2).
  destruct H2 as (H2 & H3 & _ & H4); [by vm_compute|by vm_compute|].
  destruct (H4 (mkEnv 3 3702) w_requested (later_refl _)) as [H5 H6].
  split_and!.
  - apply H1. by vm_compute.
  - exact H2.
  - exact H3.
  - exact H5.
  - apply H6. simpl. lia.
Defined.

Lemma publish_wf : wf_call (PublishResults 1 [2; 1] proof_ok).
Proof. simpl. split; [lia|]. repeat constructor; lia. Qed.

Lemma publishResults_contract_witness :
  outcome (publishResults env_publish 1 [2; 1] [] w_requested)
    = Some DecryptionProofInvalid ∧
  outcome (publishResults env_publish 1 [2; 1] proof_ok w_requested) = None ∧
  publicResults
    (votes_at (step env_publish (PublishResults 1 [2; 1] proof_ok) w_requested) 1)
    = [2; 1] ∧
  outcome (publishResults (mkEnv 3 3703) 1 [0; 3] proof_ok w_published)
    = Some (ResultsAlreadyPublished 1).
Proof.
  assert (Hc : wf_call (PublishResults 1 [2; 1] [])).
  { simpl. split; [lia|]. repeat constructor; lia. }
  assert (Hex : 1 ≤ 1 ≤ _voteCount w_requested) by (by vm_compute).
  assert (Hd : decryptionRequested (votes_at w_requested 1) = true)
    by (by vm_compute).
  assert (Hp : resultsPublished (votes_at w_requested 1) = false)
    by (by vm_compute).
  assert (Hlen : length [2; 1] = length (options (votes_at w_requested 1)))
    by (by vm_compute).
  pose proof (publishResults_contract env_publish 1 [2; 1] [] w_requested
                reachable_requested Hc Hex) as (_ & _ & _ & H1 & _).
  pose proof (publishResults_contract env_publish 1 [2; 1] proof_ok
                w_requested reachable_requested publish_wf Hex)
    as (_ & _ & _ & _ & H2).
  destruct (H1 Hd Hp Hlen) as [H1' _]; [by vm_compute|].
  destruct (H2 Hd Hp Hlen) as (H2' & H3 & _ & H4); [by vm_compute|].
  split_and!; [exact H1'|exact H2'|exact H3|].
  exact (proj1 (H4 (mkEnv 3 3703) [0; 3] proof_ok w_published (later_refl _))).
Defined.

Lemma lifecycle_flags_witness :
  RequestResultsDecryption (F:=MockFHE) 1 = RequestResultsDecryption 1 ∧
  endTime (votes_at w_voted 1) < block_timestamp env_request ∧
  decryptionRequested
    (votes_at (step env_publish (PublishResults 1 [2; 1] proof_ok) w_requested) 1)
    = true.
Proof.
  pose proof (lifecycle_flags env_request (RequestResultsDecryption 1)
                w_voted 1 reachable_voted) as (H1 & _); [simpl; lia|].
  pose proof (lifecycle_flags env_publish (PublishResults 1 [2; 1] proof_ok)
                w_requested 1 reachable_requested publish_wf)
    as (_ & _ & H2 & _).
  assert (H0 : decryptionRequested (votes_at w_voted 1) = false)
    by (by vm_compute).
  assert (H3 : decryptionRequested
                 (votes_at (step env_request (RequestResultsDecryption 1) w_voted) 1)
               = true) by (by vm_compute).
  destruct (H1 H0 H3) as [Ha Hb].
  split_and!; [exact Ha|exact Hb|exact (H2 H3)].
Defined.

Lemma length_consistency_witness :
  length (encryptedCounts (votes_at w_requested 1))
    = length (options (votes_at w_requested 1)) ∧
  length (publicResults
            (votes_at (step env_publish (PublishResults 1 [2; 1] proof_ok)
                         w_requested) 1))
    = length (options
                (votes_at (step env_publish (PublishResults 1 [2; 1] proof_ok)
                             w_requested) 1)).
Proof.
  pose proof (length_consistency env_publish (PublishResults 1 [2; 1] proof_ok)
                w_requested 1 reachable_requested publish_wf)
    as [[H1 _] [_ H2]].
  split; [exact H1|]. apply H2. by vm_compute.
Defined.

Lemma castVote_frame_witness :
  let e := mkEnv 1 120 in
  let w' := step e (CastVote 1 (handle_of 0) proof_ok) w_created in
  voted_at w_created 1 (msg_sender e) = false ∧
  voted_at w' 1 (msg_sender e) = true ∧
  options (votes_at w' 1) = options (votes_at w_created 1) ∧
  _voteCount w' = _voteCount w_created ∧
  acl_public w' = acl_public w_created.
Proof.
  assert (Hc : wf_call (CastVote 1 (handle_of 0) proof_ok)) by (simpl; lia).
  assert (Hs : succeeds (castVote (mkEnv 1 120) 1 (handle_of 0) proof_ok
                           w_created)) by (by vm_compute).
  pose proof (castVote_frame (mkEnv 1 120) 1 (handle_of 0) proof_ok w_created
                reachable_created Hc Hs)
    as (H1 & H2 & _ & _ & _ & H3 & _ & _ & _ & _ & _ & _ & H4 & H5 & _).
  intros e w'. split_and!; [exact H1|exact H2|exact H3|exact H4|exact H5].
Defined.

Lemma tally_counts_ballots_witness :
  let w1 := step env_create (CreateVote "Lunch" ["A"; "B"] 110 3700) init in
  let count := votes_for 0 (ballots (_voteCount init + 1) ballots_cast w1) in
  count = 2 ∧
  tally w1 (_voteCount init + 1) !! 0%nat = Some 0 ∧
  tally (run ballots_cast w1) (_voteCount init + 1) !! 0%nat = Some count.
Proof.
  assert (Hs : succeeds (createVote env_create "Lunch" ["A"; "B"] 110 3700 init))
    by (by vm_compute).
  assert (Hk : (0 < length ["A"; "B"])%nat) by (simpl; lia).
  pose proof (tally_counts_ballots env_create "Lunch" ["A"; "B"] 110 3700
                init ballots_cast 0 reachable_init lunch_wf Hs ballots_cast_wf Hk)
    as (H1 & _ & H2 & _).
  intros w1 count.
  assert (Hn : count = 2) by (by vm_compute).
  split_and!; [exact Hn|exact H1|]. apply H2. fold w1 count. rewrite Hn. lia.
Defined.

(** ** More ballots than a 32-bit accumulator can count *)

Lemma crowd_wf s n : Forall (λ ec, wf_call ec.2) (crowd s n).
Proof.
  unfold crowd. apply Forall_fmap, Forall_forall. intros a _. simpl. lia.
Qed.

Lemma crowd_ballots n : ∀ s w v,
  wf w → _votes w !! 1 = Some v → startTime v ≤ 120 ≤ endTime v →
  (∀ a, (s ≤ a)%nat → voted_at w 1 (Z.of_nat a) = false) →
  ballots 1 (crowd s n) w = replicate n 0.
Proof.
  induction n as [|n IH]; intros s w v Hwf Hv Ht Hfresh; [done|].
  assert (Hc : wf_call (CastVote 1 (handle_of 0) proof_ok)) by (simpl; lia).
  assert (Hex : 1 ≤ 1 ≤ _voteCount w) by (apply (wf_slots w Hwf); eauto).
  set (e := mkEnv (Z.of_nat s) 120).
  set (c := CastVote 1 (handle_of 0) proof_ok) in *.
  assert (Hok : castVote e 1 (handle_of 0) proof_ok w = inr ((), step e c w)
                ∧ effect e w c (step e c w)).
  { apply (succeeds_effect e c w Hwf Hc).
    unfold succeeds, c. cbn [dispatch]. rewrite castVote_eq by (done || lia).
    rewrite (proj2 (exists_test w 1 ltac:(lia)) Hex). cbn zeta.
    rewrite (votes_at_Some _ _ _ Hv). unfold e.
    cbn [msg_sender block_timestamp].
    rewrite (proj2 (Z.ltb_ge _ _)) by lia.
    rewrite Z.gtb_ltb, (proj2 (Z.ltb_ge _ _)) by lia.
    by rewrite (Hfresh s) by lia. }
  destruct Hok as [Heq Heff].
  change (crowd s (S n)) with ((e, c) :: crowd (S s) n).
  cbn [ballots]. unfold ballot at 1, c at 1.
  rewrite bool_decide_eq_true_2 by done. rewrite Heq.
  change (FHE_fromExternal (msg_sender e) (handle_of 0) proof_ok)
    with (@Some (@euint32 MockFHE) 0).
  change (@decrypt MockFHE 0) with 0. cbn [app replicate]. f_equal.
  pose proof (wf_step e c w Hwf Hc) as Hwf1.
  set (w1 := step e c w) in *. clearbody w1.
  inversion Heff as [|j y q u choice Hu _ _ _ Hj Hw1| |]; subst j y q w1.
  eapply IH; [done|cbn [_votes]; apply lookup_insert_eq|..].
  - replace u with v by congruence. done.
  - intros a Ha. unfold voted_at. cbn [_hasVoted].
    rewrite lookup_insert_ne
      by (unfold e; cbn [msg_sender]; intros [=]; lia).
    apply Hfresh. lia.
Qed.

(** C1 as stated fails: after 2^32 accepted ballots for option 0 its
    accumulator decrypts to 0, not to the number of those ballots. *)
Lemma tally_wraps_counterexample :
  let tr := crowd 0 (Z.to_nat (2 ^ 32)) in
  reachable (run tr w_created) ∧
  votes_for 0 (ballots 1 tr w_created) = 2 ^ 32 ∧
  tally (run tr w_created) 1 !! 0%nat = Some 0 ∧
  tally (run tr w_created) 1 !! 0%nat
    ≠ Some (votes_for 0 (ballots 1 tr w_created)).
Proof.
  assert (HN : Z.of_nat (Z.to_nat (2 ^ 32)) = 2 ^ 32) by (apply Z2Nat.id; lia).
  generalize dependent (Z.to_nat (2 ^ 32)). intros N HN tr.
  pose proof (reachable_wf _ reachable_created) as Hwf.
  assert (H1 : 1 ≤ 1 ≤ _voteCount w_created) by (by vm_compute).
  destruct (proj2 (wf_slots w_created Hwf 1) H1) as [v Hv].
  assert (Hs : startTime (votes_at w_created 1) = 110) by (by vm_compute).
  assert (He : endTime (votes_at w_created 1) = 3700) by (by vm_compute).
  rewrite (votes_at_Some _ _ _ Hv) in Hs, He.
  assert (Hb : ballots 1 tr w_created = replicate N 0).
  { apply (crowd_ballots N 0%nat w_created v Hwf Hv); [lia|].
    intros a _. unfold w_created, lunch.
    rewrite voted_at_create by (apply wf_init || apply lunch_wf).
    apply voted_at_init. }
  assert (Hcount : votes_for 0 (ballots 1 tr w_created) = 2 ^ 32).
  { rewrite Hb. rewrite <- HN. apply (votes_for_replicate 0). }
  assert (H0 : tally w_created 1 !! 0%nat = Some 0) by (by vm_compute).
  assert (Ht : tally (run tr w_created) 1 !! 0%nat = Some 0).
  { rewrite (tally_run 1 0 tr w_created 0 Hwf (crowd_wf 0 N) H1 H0).
    rewrite Hcount. reflexivity. }
  split_and!; [|done|done|].
  - apply reachable_run; [apply reachable_created|apply crowd_wf].
  - rewrite Ht, Hcount. intros [=].
Qed.

(** * The further properties on the concrete run *)

Lemma reachable_published : reachable w_published.
Proof. apply reachable_step; [apply publish_wf|apply reachable_requested]. Qed.

Lemma later_created_voted : later w_created w_voted.
Proof.
  apply later_step; [simpl; lia|]. apply later_step; [simpl; lia|].
  apply later_step; [simpl; lia|]. apply later_refl.
Qed.

Lemma history_chronological : chronological 0 history.
Proof.
  simpl. split_and!; try lia; try done. repeat constructor; lia.
Qed.

Lemma chrono_final : chrono (last_time 0 history) w_final.
Proof.
  exact (chrono_run history 0 init chrono_init history_chronological).
Qed.

Lemma mock_checkSignatures_sound (hs : list (@euint32 MockFHE)) cs p :
  length hs = length cs → Forall (λ x, 0 ≤ x < 2 ^ 32) cs →
  @FHE_checkSignatures MockFHE hs (abi_encode cs) p = true →
  cs = @decrypt MockFHE <$> hs.
Proof.
  intros _ Hcs. destruct p as [|b p]; [done|]. intros H.
  apply bytes_eqb_eq, abi_encode_inj in H; [done|done|].
  apply Forall_fmap, Forall_forall. intros h _.
  apply Z.mod_pos_bound. lia.
Qed.

Lemma gateway_payload (hs : list (@euint32 GatewayFHE)) cleartexts p :
  @FHE_checkSignatures GatewayFHE hs cleartexts p = true →
  length cleartexts = (32 * length hs)%nat.
Proof.
  destruct p as [|b p]; [done|]. intros H. apply bytes_eqb_eq in H.
  by rewrite H, abi_encode_values_length, length_fmap.
Qed.

Lemma reachable_gateway : reachable w_gateway.
Proof.
  apply reachable_run; [apply reachable_init|].
  repeat constructor; simpl; lia.
Qed.

(** C2.  The results the decryption service returns are not accepted.  On
    the deployed check, with ballots for options 0, 1 and 0 cast and the
    decryption requested, the tally is [2; 1], the proof verifies against
    the accumulators and these counts, and the three earlier checks of
    [publishResults] pass; yet [publishResults] with these counts and this
    proof reverts inside [FHE.checkSignatures], and [resultsPublished]
    stays unset. *)
Lemma publishResults_rejects_decrypted_counts :
  decryptionRequested (votes_at w_gateway 1) = true ∧
  resultsPublished (votes_at w_gateway 1) = false ∧
  tally w_gateway 1 = [2; 1] ∧
  length [2; 1] = length (options (votes_at w_gateway 1)) ∧
  @FHE_checkSignatures GatewayFHE (encryptedCounts (votes_at w_gateway 1))
    (abi_encode_values [2; 1]) proof_ok = true ∧
  outcome (publishResults env_publish 1 [2; 1] proof_ok w_gateway)
    = Some DecryptionProofInvalid ∧
  resultsPublished
    (votes_at (step env_publish (PublishResults 1 [2; 1] proof_ok) w_gateway) 1)
    = false.
Proof. split_and!; by vm_compute. Qed.

Lemma publishResults_word_payload_witness :
  (∀ i, resultsPublished (votes_at w_gateway i) = false) ∧
  (∀ e i cs p, wf_call (PublishResults (F:=GatewayFHE) i cs p) →
     outcome (publishResults e i cs p w_gateway) ≠ None ∧
     step e (PublishResults i cs p) w_gateway = w_gateway).
Proof.
  exact (publishResults_word_payload w_gateway gateway_payload
           reachable_gateway).
Defined.

Lemma missing_poll_rejected_witness :
  outcome (castVote (mkEnv 1 120) 5 (handle_of 0) proof_ok w_created)
    = Some (VoteNotFound 5) ∧
  outcome (getVote 5 w_created) = Some (VoteNotFound 5) ∧
  outcome (hasVoted 5 1 w_created) = Some (VoteNotFound 5) ∧
  outcome (getVote 1 w_created) = None ∧
  outcome (getEncryptedCounts 1 w_created) = None ∧
  (∀ j, outcome (castVote (mkEnv 1 120) 1 (handle_of 0) proof_ok w_created)
          ≠ Some (VoteNotFound j)) ∧
  outcome (getPublicResults 1 w_created) = Some (ResultsNotReady 1).
Proof.
  assert (Hp : resultsPublished (votes_at w_created 1) = false)
    by (by vm_compute).
  assert (Hn : _voteCount w_created = 1) by (by vm_compute).
  pose proof (missing_poll_rejected (mkEnv 1 120) 5 1 (handle_of 0) proof_ok
                [2; 1] w_created reachable_created) as [H _]; [lia|].
  pose proof (missing_poll_rejected (mkEnv 1 120) 1 1 (handle_of 0) proof_ok
                [2; 1] w_created reachable_created) as [_ H']; [lia|].
  destruct H as (H1 & _ & _ & H2 & _ & _ & H3); [rewrite Hn; lia|].
  destruct H' as (H6 & _ & _ & H4 & H5 & _ & _ & H7); [rewrite Hn; lia|].
  split_and!; [exact H1|exact H2|exact H3|exact H4|exact H5|exact H6|].
  exact (H7 Hp).
Defined.

Lemma createVote_getVote_witness :
  let w1 := step env_create (CreateVote "Lunch" ["A"; "B"] 110 3700) init in
  let i := _voteCount init + 1 in
  getVote i w1
    = inr (("Lunch", ["A"; "B"], 110, 3700, msg_sender env_create, false, false),
           w1) ∧
  ∃ requested published,
    getVote i w_voted
      = inr (("Lunch", ["A"; "B"], 110, 3700, msg_sender env_create,
              requested, published), w_voted).
Proof.
  assert (Hs : succeeds (createVote env_create "Lunch" ["A"; "B"] 110 3700 init))
    by (by vm_compute).
  exact (createVote_getVote env_create "Lunch" ["A"; "B"] 110 3700 init
           w_voted reachable_init lunch_wf Hs later_created_voted).
Defined.

Lemma publishResults_getPublicResults_witness :
  outcome (getPublicResults 1 w_requested) = Some (ResultsNotReady 1) ∧
  getPublicResults 1 w_published = inr ([2; 1], w_published) ∧
  length [2; 1] = length (options (votes_at w_published 1)).
Proof.
  assert (Hex : 1 ≤ 1 ≤ _voteCount w_requested) by (by vm_compute).
  assert (Hp : resultsPublished (votes_at w_requested 1) = false)
    by (by vm_compute).
  assert (Hs : succeeds (publishResults env_publish 1 [2; 1] proof_ok
                           w_requested)) by (by vm_compute).
  pose proof (publishResults_getPublicResults env_publish 1 [2; 1] proof_ok
                w_requested w_published reachable_requested publish_wf Hex)
    as [H1 H2].
  split; [exact (H1 Hp)|exact (H2 Hs (later_refl _))].
Defined.

Lemma hasVoted_iff_logged_witness :
  hasVoted 1 1 w_voted = inr (true, w_voted) ∧ 1 ≤ 1 ≤ _voteCount w_voted.
Proof.
  assert (He : events w_voted
               = [VoteCreated 1 7 "Lunch" 110 3700; VoteCast 1 1;
                  VoteCast 1 2; VoteCast 1 3]) by (by vm_compute).
  assert (Hin : VoteCast 1 1 ∈ events w_voted).
  { rewrite He. apply list_elem_of_further, list_elem_of_here. }
  pose proof (hasVoted_iff_logged 1 1 w_voted reachable_voted) as [H1 H2];
    [lia|].
  split; [exact (proj1 H1 Hin)|exact (H2 Hin)].
Defined.

Lemma log_mirrors_storage_witness :
  ResultsDecryptionRequested 1 ∈ events w_published ∧
  ResultsPublished 1 ∈ events w_published ∧
  VoteCreated 1 7 "Lunch" 110 3700 ∈ events w_published.
Proof.
  pose proof (log_mirrors_storage w_published 1 reachable_published)
    as (H1 & H2 & H3).
  split_and!.
  - apply H1. by vm_compute.
  - apply H2. by vm_compute.
  - apply H3. split_and!; by vm_compute.
Defined.

Lemma events_logged_once_witness : NoDup (events w_published).
Proof. exact (events_logged_once w_published reachable_published). Defined.

Lemma getVoteCount_counts_created_witness :
  omap created_id (events w_published)
    = (λ k, Z.of_nat k + 1) <$> seq 0 (Z.to_nat (_voteCount w_published)) ∧
  getVoteCount w_published
    = inr (Z.of_nat (length (omap created_id (events w_published))),
           w_published).
Proof.
  exact (getVoteCount_counts_created w_published reachable_published).
Defined.

Lemma castVote_tally_witness :
  let w' := step (mkEnv 1 120) (CastVote 1 (handle_of 7) proof_ok) w_created in
  tally w' 1 = tally w_created 1 ∧ voted_at w' 1 1 = true.
Proof.
  assert (Hc : wf_call (CastVote 1 (handle_of 7) proof_ok)) by (simpl; lia).
  assert (Hs : succeeds (castVote (mkEnv 1 120) 1 (handle_of 7) proof_ok
                           w_created)) by (by vm_compute).
  assert (Hl : Z.of_nat (length (options (votes_at w_created 1))) = 2)
    by (by vm_compute).
  pose proof (castVote_tally (mkEnv 1 120) 1 (handle_of 7) proof_ok w_created
                reachable_created Hc Hs) as (choice & Hch & _ & H).
  change (@Some (@euint32 MockFHE) 7 = Some choice) in Hch.
  injection Hch as <-. apply H. rewrite Hl.
  change (@decrypt MockFHE 7) with (7 mod 2 ^ 32). by vm_compute.
Defined.

Lemma castVote_rejected_proof_witness :
  let w' := step (mkEnv 1 120) (CastVote 1 (handle_of 0) []) w_created in
  outcome (castVote (mkEnv 1 120) 1 (handle_of 0) [] w_created)
    = Some InputProofInvalid ∧
  voted_at w' 1 (msg_sender (mkEnv 1 120)) = false ∧
  succeeds (castVote (mkEnv 1 120) 1 (handle_of 1) proof_ok w').
Proof.
  assert (Hc : wf_call (CastVote 1 (handle_of 0) [])) by (simpl; lia).
  assert (Hex : 1 ≤ 1 ≤ _voteCount w_created) by (by vm_compute).
  assert (Hs : startTime (votes_at w_created 1) = 110) by (by vm_compute).
  assert (He : endTime (votes_at w_created 1) = 3700) by (by vm_compute).
  assert (Ht : startTime (votes_at w_created 1) ≤ block_timestamp (mkEnv 1 120)
               ≤ endTime (votes_at w_created 1)).
  { rewrite Hs, He. simpl. lia. }
  assert (Hv : voted_at w_created 1 (msg_sender (mkEnv 1 120)) = false)
    by (by vm_compute).
  pose proof (castVote_rejected_proof (mkEnv 1 120) 1 (handle_of 0) []
                w_created reachable_created Hc Hex Ht Hv eq_refl)
    as (H1 & H2 & H3).
  split_and!; [exact H1|exact H2|].
  apply (H3 (handle_of 1) proof_ok). by eexists.
Defined.

Lemma tally_frozen_outside_window_witness :
  let tr := [ (mkEnv 9 5000, CastVote 1 (handle_of 0) proof_ok);
              (mkEnv 9 50, CastVote 1 (handle_of 1) proof_ok) ] in
  encryptedCounts (votes_at (run tr w_voted) 1)
    = encryptedCounts (votes_at w_voted 1) ∧
  ∀ a, voted_at (run tr w_voted) 1 a = voted_at w_voted 1 a.
Proof.
  assert (Hex : 1 ≤ 1 ≤ _voteCount w_voted) by (by vm_compute).
  assert (Hs : startTime (votes_at w_voted 1) = 110) by (by vm_compute).
  assert (He : endTime (votes_at w_voted 1) = 3700) by (by vm_compute).
  refine (tally_frozen_outside_window 1 w_voted _ reachable_voted Hex _).
  rewrite Hs, He.
  repeat constructor; simpl; lia.
Defined.

Lemma accumulators_allowed_witness :
  (2 : @euint32 MockFHE) ∈ acl_allowed w_voted.
Proof.
  assert (H : encryptedCounts (votes_at w_voted 1) = [2; 1])
    by (by vm_compute).
  apply (accumulators_allowed w_voted 1 2 reachable_voted).
  rewrite H. apply list_elem_of_here.
Defined.

Lemma requested_accumulators_public_witness :
  endTime (votes_at w_final 1) < last_time 0 history ∧
  getEncryptedCounts 1 w_final
    = inr (encryptedCounts (votes_at w_final 1), w_final) ∧
  ∀ x, x ∈ encryptedCounts (votes_at w_final 1) → x ∈ acl_public w_final.
Proof.
  assert (Hd : decryptionRequested (votes_at w_final 1) = true)
    by (by vm_compute).
  exact (requested_accumulators_public (last_time 0 history) w_final 1
           chrono_final Hd).
Defined.

Lemma accumulators_final_witness :
  let tr := [ (mkEnv 1 3800, CastVote 1 (handle_of 1) proof_ok) ] in
  encryptedCounts (votes_at (run tr w_final) 1)
    = encryptedCounts (votes_at w_final 1) ∧
  ∀ a, voted_at (run tr w_final) 1 a = voted_at w_final 1 a.
Proof.
  assert (Hd : decryptionRequested (votes_at w_final 1) = true)
    by (by vm_compute).
  assert (Hl : last_time 0 history = 3702) by (by vm_compute).
  refine (accumulators_final (last_time 0 history) w_final 1 _ chrono_final
            Hd _).
  rewrite Hl. simpl. lia.
Defined.

Lemma published_results_verified_witness :
  (∃ p, FHE_checkSignatures (encryptedCounts (votes_at w_final 1))
          (abi_encode (publicResults (votes_at w_final 1))) p = true) ∧
  publicResults (votes_at w_final 1) = tally w_final 1.
Proof.
  assert (Hp : resultsPublished (votes_at w_final 1) = true)
    by (by vm_compute).
  pose proof (published_results_verified (last_time 0 history) w_final 1
                chrono_final Hp) as [H1 H2].
  split; [exact H1|exact (H2 mock_checkSignatures_sound)].
Defined.

Lemma createVote_frame_witness :
  let w' := step env_create (CreateVote "Lunch" ["A"; "B"] 110 3700) init in
  _voteCount w' = _voteCount init + 1 ∧
  (∀ j a, voted_at w' j a = voted_at init j a) ∧
  acl_public w' = acl_public init ∧
  events w'
    = events init
      ++ [VoteCreated (_voteCount init + 1) (msg_sender env_create) "Lunch"
            110 3700].
Proof.
  assert (Hs : succeeds (createVote env_create "Lunch" ["A"; "B"] 110 3700 init))
    by (by vm_compute).
  pose proof (createVote_frame env_create "Lunch" ["A"; "B"] 110 3700 init
                reachable_init lunch_wf Hs) as (H1 & _ & H2 & H3 & _ & H4).
  intros w'. split_and!; [exact H1|exact H2|exact H3|exact H4].
Defined.

Lemma requestResultsDecryption_frame_witness :
  let w' := step env_request (RequestResultsDecryption 1) w_voted in
  votes_at w' 1 = set_decryptionRequested true (votes_at w_voted 1) ∧
  (∀ j a, voted_at w' j a = voted_at w_voted j a) ∧
  _voteCount w' = _voteCount w_voted ∧
  acl_allowed w' = acl_allowed w_voted ∧
  events w' = events w_voted ++ [ResultsDecryptionRequested 1].
Proof.
  assert (Hc : wf_call (RequestResultsDecryption (F:=MockFHE) 1))
    by (simpl; lia).
  assert (Hs : succeeds (requestResultsDecryption env_request 1 w_voted))
    by (by vm_compute).
  pose proof (requestResultsDecryption_frame env_request 1 w_voted
                reachable_voted Hc Hs) as (H1 & _ & H2 & H3 & H4 & _ & H5).
  intros w'. split_and!; [exact H1|exact H2|exact H3|exact H4|exact H5].
Defined.

Lemma publishResults_frame_witness :
  let w' := step env_publish (PublishResults 1 [2; 1] proof_ok) w_requested in
  votes_at w' 1
    = set_resultsPublished true
        (set_publicResults [2; 1] (votes_at w_requested 1)) ∧
  (∀ j a, voted_at w' j a = voted_at w_requested j a) ∧
  acl_allowed w' = acl_allowed w_requested ∧
  acl_public w' = acl_public w_requested ∧
  events w' = events w_requested ++ [ResultsPublished 1].
Proof.
  assert (Hs : succeeds (publishResults env_publish 1 [2; 1] proof_ok
                           w_requested)) by (by vm_compute).
  pose proof (publishResults_frame env_publish 1 [2; 1] proof_ok w_requested
                reachable_requested publish_wf Hs)
    as (H1 & _ & H2 & _ & H3 & H4 & H5).
  intros w'. split_and!; [exact H1|exact H2|exact H3|exact H4|exact H5].
Defined.

Lemma getStatus_agrees_with_contract_witness :
  VoteApp.isActive
    (VoteApp.getStatus (λ z, z) (lunch_entry false false)
       (block_timestamp (mkEnv 1 120))) = true ∧
  VoteApp.isEnded
    (VoteApp.getStatus (λ z, z) (lunch_entry false false)
       (block_timestamp (mkEnv 1 120))) = false ∧
  VoteApp.isUpcoming
    (VoteApp.getStatus (λ z, z) (lunch_entry false false)
       (block_timestamp (mkEnv 1 109))) = true.
Proof.
  assert (Hc : wf_call (CastVote 1 (handle_of 0) proof_ok)) by (simpl; lia).
  assert (Hex : 1 ≤ 1 ≤ _voteCount w_created) by (by vm_compute).
  assert (Hs : VoteApp.startTime (lunch_entry false false)
               = startTime (votes_at w_created 1)) by (by vm_compute).
  assert (He : VoteApp.endTime (lunch_entry false false)
               = endTime (votes_at w_created 1)) by (by vm_compute).
  assert (Hs0 : 0 ≤ startTime (votes_at w_created 1)) by (by vm_compute).
  assert (He53 : endTime (votes_at w_created 1) < 2 ^ 53) by (by vm_compute).
  pose proof (getStatus_agrees_with_contract (λ z, z) (lunch_entry false false)
                (mkEnv 1 120) 1 (handle_of 0) proof_ok w_created
                reachable_created Hc Hex (λ z _, eq_refl) Hs He Hs0 He53)
    as (_ & _ & H1 & H2).
  pose proof (getStatus_agrees_with_contract (λ z, z) (lunch_entry false false)
                (mkEnv 1 109) 1 (handle_of 0) proof_ok w_created
                reachable_created Hc Hex (λ z _, eq_refl) Hs He Hs0 He53)
    as (H3 & _).
  split_and!.
  - apply H2. by vm_compute.
  - apply H1. by vm_compute.
  - apply H3. by vm_compute.
Defined.

Lemma voteIds_are_the_polls_witness :
  VoteApp.voteIds (λ z, z) None = Some [] ∧
  ∃ ids, VoteApp.voteIds (λ z, z) (Some (_voteCount w_voted)) = Some ids ∧
    ids = (λ k, Z.of_nat k + 1) <$> seq 0 (Z.to_nat (_voteCount w_voted)) ∧
    ∀ i, 0 ≤ i → (i ∈ ids ↔ outcome (getVote i w_voted) = None).
Proof.
  assert (Hn : _voteCount w_voted < 2 ^ 32) by (by vm_compute).
  pose proof (voteIds_are_the_polls (λ z, z) w_voted reachable_voted
                (λ z _, eq_refl)) as (H1 & H2 & _).
  split; [exact H1|exact (H2 Hn)].
Defined.

Lemma publishedVoteIds_readable_witness :
  VoteApp.id (lunch_entry true true)
    ∈ VoteApp.publishedVoteIds [lunch_entry true true] ∧
  outcome (getPublicResults (VoteApp.id (lunch_entry true true)) w_published)
    = None.
Proof.
  assert (Hex : 1 ≤ VoteApp.id (lunch_entry true true)
                ≤ _voteCount w_published) by (by vm_compute).
  assert (Hp : VoteApp.resultsPublished (lunch_entry true true)
               = resultsPublished
                   (votes_at w_published (VoteApp.id (lunch_entry true true))))
    by (by vm_compute).
  pose proof (publishedVoteIds_readable [lunch_entry true true] w_published
                reachable_published) as [H1 H2].
  { intros vote ->%list_elem_of_singleton. by split. }
  assert (Hin : VoteApp.id (lunch_entry true true)
                ∈ VoteApp.publishedVoteIds [lunch_entry true true]).
  { apply H2; [apply list_elem_of_here|done]. }
  split; [exact Hin|exact (H1 _ Hin)].
Defined.
